(** * Windowed batcher of [src/ingestor.py]

    A shallow embedding of [Ingestor] (its queue, its [is_running] flag and the
    asynchronous generator [process_stream]) together with the properties of
    the tumbling window that the specification states.

    Time is counted in milliseconds as an integer: [BATCH_TIME_LIMIT = 5.0]
    seconds is [5000], the liveness timeout [1.0] of an idle wait is [1000].
    The code only subtracts and compares clock readings.

    [process_stream] is a coroutine: other tasks (the producer calling
    [add_log], whoever clears [is_running]) run only while it is suspended,
    that is inside [await asyncio.wait_for(...)] and at every [yield].  An
    execution is therefore driven by a _script_: for each turn of the [while]
    loop, what the other tasks did during the wait, how the wait ended, and
    what they did while the consumer held a yielded batch.  Statements between
    two suspension points are instantaneous.

    Around the ingestor, the development also covers the bookkeeping of the
    consumer loop of [app.py] (module [App]), the analyzer of [agent.py]
    (module [Agent], with the model, [json.loads] and the validation of the
    report as parameters) and the log generator of [generators.py] (module
    [Chaos], with the random draws and the timestamps given by the
    script). *)

From Stdlib Require Import String List ZArith Bool Lia Ascii.
From Stdlib Require QArith.
Import ListNotations.

Local Open Scope Z_scope.

(** ** Configuration: the two class attributes of [Ingestor] *)

Record Config : Type := mkConfig {
  BATCH_SIZE_LIMIT : nat;
  BATCH_TIME_LIMIT : Z
}.

Definition default_config : Config :=
  {| BATCH_SIZE_LIMIT := 100; BATCH_TIME_LIMIT := 5000 |}.

(** Timeout of the wait on an empty batch (line 55, [timeout=1.0]). *)
Definition IDLE_TIMEOUT : Z := 1000.

(** ** The shared world: wall clock and the [Ingestor] instance *)

Record World : Type := mkWorld {
  clock : Z;                 (* what [time.time()] returns now *)
  queue : list string;       (* [self.queue], oldest first *)
  is_running : bool;         (* [self.is_running] *)
  history : list string      (* every argument of [add_log] so far, oldest
                                first; specification-only, never read *)
}.

(** [Ingestor.__init__], on an instance created at time [t]. *)
Definition init (t : Z) : World :=
  {| clock := t; queue := []; is_running := false; history := [] |}.

(** [Ingestor.add_log]: [await self.queue.put(log)] on an unbounded queue. *)
Definition add_log (log : string) (w : World) : World :=
  {| clock := clock w; queue := queue w ++ [log];
     is_running := is_running w; history := history w ++ [log] |}.

(** Requesting stop: [ingestor.is_running = False] (app.py, tests). *)
Definition stop (w : World) : World :=
  {| clock := clock w; queue := queue w;
     is_running := false; history := history w |}.

Definition elapse (dt : N) (w : World) : World :=
  {| clock := clock w + Z.of_N dt; queue := queue w;
     is_running := is_running w; history := history w |}.

(** What the other tasks can do while [process_stream] is suspended. *)
Inductive EnvAct : Type :=
| Push (log : string)
| Stop
| Sleep (dt : N).

Definition act (a : EnvAct) (w : World) : World :=
  match a with
  | Push log => add_log log w
  | Stop => stop w
  | Sleep dt => elapse dt w
  end.

Definition apply_env (acts : list EnvAct) (w : World) : World :=
  fold_left (fun w a => act a w) acts w.

(** ** Local state of the generator *)

Record Gen : Type := mkGen {
  batch : list string;
  last_flush_time : Z
}.

(** How [await asyncio.wait_for(self.queue.get(), timeout=...)] ends:
    a log is returned, [asyncio.TimeoutError] is raised, or some other
    [Exception] is raised. *)
Inductive Outcome : Type := Arrived | TimedOut | Faulted.

(** One turn of the [while] loop as the environment sees it. *)
Record Cycle : Type := mkCycle {
  on_wait : list EnvAct;     (* during the [await] of line 47 / 55 *)
  outcome : Outcome;
  on_yield : list EnvAct;    (* while suspended at the [yield] of line 61 / 68 *)
  on_recheck : list EnvAct   (* while suspended at the [yield] of line 87 *)
}.

(** Which [yield] produced a batch. *)
Inductive Trigger : Type := BySize | ByTimeout | ByRecheck | ByDrain.

Record Emission : Type := mkEmission {
  trigger : Trigger;
  records : list string;     (* the yielded list *)
  elapsed : Z                (* clock minus [last_flush_time] at the yield *)
}.

Inductive WaitResult : Type :=
| Got (log : string)
| Timeout
| Fault.

(** The wait itself.  The script must be consistent with the queue and the
    clock: a log can only be returned when one is queued by the end of the
    wait, and a timeout means that at least [timeout] has passed. *)
Definition wait_for (timeout : Z) (c : Cycle) (w : World)
  : option (WaitResult * World) :=
  let w1 := apply_env (on_wait c) w in
  match outcome c with
  | Arrived =>
      match queue w1 with
      | [] => None
      | log :: rest =>
          Some (Got log,
                {| clock := clock w1; queue := rest;
                   is_running := is_running w1; history := history w1 |})
      end
  | TimedOut =>
      if timeout <=? clock w1 - clock w then Some (Timeout, w1) else None
  | Faulted => Some (Fault, w1)
  end.

Definition nonempty (l : list string) : bool :=
  match l with [] => false | _ => true end.

Definition queue_empty (w : World) : bool := negb (nonempty (queue w)).

(** [yield batch; batch = []; last_flush_time = time.time()] *)
Definition flush (t : Trigger) (acts : list EnvAct) (w : World) (g : Gen)
  : list Emission * World * Gen :=
  let e := {| trigger := t; records := batch g;
              elapsed := clock w - last_flush_time g |} in
  let w' := apply_env acts w in
  ([e], w', {| batch := []; last_flush_time := clock w' |}).

(** Lines 33-83: the timed wait and the [try] / [except] around it, for the
    ways of ending the wait that the handlers cover; an exception that they
    do not catch is counted in by [loop_raising]. *)
Definition try_block (cfg : Config) (c : Cycle) (w : World) (g : Gen)
  : option (list Emission * World * Gen) :=
  let time_since_flush := clock w - last_flush_time g in
  let time_remaining := Z.max 0 (BATCH_TIME_LIMIT cfg - time_since_flush) in
  let timeout := if nonempty (batch g) then time_remaining else IDLE_TIMEOUT in
  match wait_for timeout c w with
  | None => None
  | Some (Got log, w1) =>
      let g1 := {| batch := batch g ++ [log];
                   last_flush_time := last_flush_time g |} in
      if (BATCH_SIZE_LIMIT cfg <=? length (batch g1))%nat
      then Some (flush BySize (on_yield c) w1 g1)
      else Some ([], w1, g1)
  | Some (Timeout, w1) =>
      if nonempty (batch g)
      then Some (flush ByTimeout (on_yield c) w1 g)
      else Some ([], w1, g)
  | Some (Fault, w1) => Some ([], w1, g)
  end.

(** Lines 85-89: the explicit re-check of the time limit. *)
Definition recheck (cfg : Config) (c : Cycle) (w : World) (g : Gen)
  : list Emission * World * Gen :=
  if nonempty (batch g)
     && (BATCH_TIME_LIMIT cfg <=? clock w - last_flush_time g)
  then flush ByRecheck (on_recheck c) w g
  else ([], w, g).

(** The body of the loop; the boolean is the [break] of lines 91-92. *)
Definition cycle (cfg : Config) (c : Cycle) (w : World) (g : Gen)
  : option (list Emission * World * Gen * bool) :=
  match try_block cfg c w g with
  | None => None
  | Some (es1, w1, g1) =>
      let '(es2, w2, g2) := recheck cfg c w1 g1 in
      Some (es1 ++ es2, w2, g2, negb (is_running w2) && queue_empty w2)
  end.

(** The result of driving the generator with a script. *)
Record Run : Type := mkRun {
  emitted : list Emission;   (* the batches yielded, in order *)
  finished : bool;           (* the generator returned *)
  world : World;
  gen : Gen
}.

Definition emit_first (es : list Emission) (r : Run) : Run :=
  {| emitted := es ++ emitted r; finished := finished r;
     world := world r; gen := gen r |}.

(** Lines 94-96: [if batch: yield batch], then the generator returns. *)
Definition drain (w : World) (g : Gen) : Run :=
  {| emitted :=
       if nonempty (batch g)
       then [{| trigger := ByDrain; records := batch g;
                elapsed := clock w - last_flush_time g |}]
       else [];
     finished := true; world := w; gen := g |}.

(** The [while] loop of line 32 and what follows it.  When the script is
    used up the generator is left suspended ([finished = false]). *)
Fixpoint loop (cfg : Config) (script : list Cycle) (w : World) (g : Gen)
  : option Run :=
  if is_running w || negb (queue_empty w) then
    match script with
    | [] => Some {| emitted := []; finished := false; world := w; gen := g |}
    | c :: rest =>
        match cycle cfg c w g with
        | None => None
        | Some (es, w', g', true) => Some (emit_first es (drain w' g'))
        | Some (es, w', g', false) =>
            option_map (emit_first es) (loop cfg rest w' g')
        end
    end
  else Some (drain w g).

(** Lines 28-30. *)
Definition start (w : World) : World * Gen :=
  let w' := {| clock := clock w; queue := queue w;
               is_running := true; history := history w |} in
  (w', {| batch := []; last_flush_time := clock w' |}).

Definition process_stream (cfg : Config) (w : World) (script : list Cycle)
  : option Run :=
  let '(w', g) := start w in loop cfg script w' g.

Definition batches (r : Run) : list (list string) := map records (emitted r).

(** ** Summaries of what the environment did, and what the properties speak of *)

Fixpoint pushed (acts : list EnvAct) : list string :=
  match acts with
  | [] => []
  | Push log :: rest => log :: pushed rest
  | _ :: rest => pushed rest
  end.

Fixpoint slept (acts : list EnvAct) : Z :=
  match acts with
  | [] => 0
  | Sleep dt :: rest => Z.of_N dt + slept rest
  | _ :: rest => slept rest
  end.

Fixpoint stops (acts : list EnvAct) : bool :=
  match acts with
  | [] => false
  | Stop :: _ => true
  | _ :: rest => stops rest
  end.

(** Everything the environment does in one cycle, whichever yields occur. *)
Definition cycle_acts (c : Cycle) : list EnvAct :=
  on_wait c ++ on_yield c ++ on_recheck c.

Definition quiet (c : Cycle) : bool :=
  match pushed (cycle_acts c) with [] => true | _ => false end.

Definition unstopped (c : Cycle) : bool := negb (stops (cycle_acts c)).

(** The trigger condition of the specification, on a buffer length and the
    time elapsed since the last flush. *)
Definition flush_condition (cfg : Config) (len : nat) (since : Z) : bool :=
  (BATCH_SIZE_LIMIT cfg <=? len)%nat
  || ((BATCH_TIME_LIMIT cfg <=? since) && (0 <? len)%nat).

(** What has been taken from the queue but not yielded yet. *)
Definition pending (r : Run) : list string :=
  if finished r then [] else batch (gen r).

(** Position of the [i]-th record of the flattened batches: the index of its
    batch and its offset inside that batch. *)
Fixpoint locate (bs : list (list string)) (i : nat) : option (nat * nat) :=
  match bs with
  | [] => None
  | b :: rest =>
      if (i <? length b)%nat then Some (0%nat, i)
      else match locate rest (i - length b) with
           | Some (k, o) => Some (S k, o)
           | None => None
           end
  end.

(** Each [Stop] of an interlude requested [S k] times in a row. *)
Fixpoint restop (k : nat) (acts : list EnvAct) : list EnvAct :=
  match acts with
  | [] => []
  | Stop :: rest => repeat Stop (S k) ++ restop k rest
  | a :: rest => a :: restop k rest
  end.

Definition restop_cycle (k : nat) (c : Cycle) : Cycle :=
  {| on_wait := restop k (on_wait c); outcome := outcome c;
     on_yield := restop k (on_yield c);
     on_recheck := restop k (on_recheck c) |}.

(** A yielded batch within the size limit: full when size-triggered, short
    of the limit otherwise. *)
Definition within_limit (cfg : Config) (e : Emission) : Prop :=
  (length (records e) <= BATCH_SIZE_LIMIT cfg)%nat /\
  match trigger e with
  | BySize => length (records e) = BATCH_SIZE_LIMIT cfg
  | _ => (length (records e) < BATCH_SIZE_LIMIT cfg)%nat
  end.

(** What justifies a yielded batch: the trigger condition inside the loop,
    a non-empty remainder at the final drain. *)
Definition justified (cfg : Config) (e : Emission) : Prop :=
  match trigger e with
  | ByDrain => records e <> []
  | _ => flush_condition cfg (length (records e)) (elapsed e) = true
  end.


(** Whether the script's account of a wait agrees with the queue and the
    clock. *)
Definition consistent (cfg : Config) (c : Cycle) (w : World) (g : Gen)
  : bool :=
  match cycle cfg c w g with Some _ => true | None => false end.

(** ** Demonstration scripts *)

Local Open Scope string_scope.
Local Open Scope list_scope.

(** A wait that returns a log after the environment did [acts]. *)
Definition arrives (acts : list EnvAct) : Cycle :=
  {| on_wait := acts; outcome := Arrived; on_yield := []; on_recheck := [] |}.

(** A wait that times out after the environment did [acts]. *)
Definition times_out (acts : list EnvAct) : Cycle :=
  {| on_wait := acts; outcome := TimedOut; on_yield := []; on_recheck := [] |}.

(** A wait that raises after the environment did [acts]. *)
Definition faults (acts : list EnvAct) : Cycle :=
  {| on_wait := acts; outcome := Faulted; on_yield := []; on_recheck := [] |}.

(** One record is queued, then stop is requested while it is being read. *)
Definition early_stop_script : list Cycle := [arrives [Push "a"; Stop]].

Definition early_stop_run : Run :=
  {| emitted := [{| trigger := ByDrain; records := ["a"]; elapsed := 0 |}];
     finished := true;
     world := {| clock := 0; queue := []; is_running := false;
                 history := ["a"] |};
     gen := {| batch := ["a"]; last_flush_time := 0 |} |}.

(** Three records are queued before the stream starts; the second is read
    when the window has elapsed, stop is requested while the third is read. *)
Definition window_pre : list EnvAct := [Push "a"; Push "b"; Push "c"].

Definition window_script : list Cycle :=
  [arrives []; arrives [Sleep 5000]; arrives [Stop]].

Definition window_run : Run :=
  {| emitted :=
       [{| trigger := ByRecheck; records := ["a"; "b"]; elapsed := 5000 |};
        {| trigger := ByDrain; records := ["c"]; elapsed := 0 |}];
     finished := true;
     world := {| clock := 5000; queue := []; is_running := false;
                 history := ["a"; "b"; "c"] |};
     gen := {| batch := ["c"]; last_flush_time := 5000 |} |}.

(** A record is read, then the next read raises. *)
Definition fault_script : list Cycle := [arrives [Push "a"]; faults []].

Definition fault_run : Run :=
  {| emitted := []; finished := false;
     world := {| clock := 0; queue := []; is_running := true;
                 history := ["a"] |};
     gen := {| batch := ["a"]; last_flush_time := 0 |} |}.

(** ... and then a second record is read while stop is requested. *)
Definition resumed_script : list Cycle :=
  fault_script ++ [arrives [Push "b"; Stop]].

Definition resumed_run : Run :=
  {| emitted := [{| trigger := ByDrain; records := ["a"; "b"];
                    elapsed := 0 |}];
     finished := true;
     world := {| clock := 0; queue := []; is_running := false;
                 history := ["a"; "b"] |};
     gen := {| batch := ["a"; "b"]; last_flush_time := 0 |} |}.






(** Two records are read one after the other; the stream then waits. *)
Definition buffered_script : list Cycle :=
  [arrives [Push "a"; Push "b"]; arrives []].

Definition buffered_run : Run :=
  {| emitted := []; finished := false;
     world := {| clock := 0; queue := []; is_running := true;
                 history := ["a"; "b"] |};
     gen := {| batch := ["a"; "b"]; last_flush_time := 0 |} |}.

(** The example of the specification: 105 records are queued at once and read
    in a burst; stop is requested during the wait that follows. *)
Definition burst_pre : list EnvAct := repeat (Push "x") 105.

Definition burst_script : list Cycle := repeat (arrives []) 105.

Definition burst_tail : list Cycle := [times_out [Stop; Sleep 5000]].

Definition burst_run : Run :=
  {| emitted := [{| trigger := BySize; records := repeat "x" 100;
                    elapsed := 0 |}];
     finished := false;
     world := {| clock := 0; queue := []; is_running := true;
                 history := repeat "x" 105 |};
     gen := {| batch := repeat "x" 5; last_flush_time := 0 |} |}.

(** ** More of the emit loop *)

(** Line 35: [time_remaining]. *)
Definition time_remaining (cfg : Config) (w : World) (g : Gen) : Z :=
  Z.max 0 (BATCH_TIME_LIMIT cfg - (clock w - last_flush_time g)).

(** Lines 45-55: the timeout handed to [asyncio.wait_for]. *)
Definition wait_timeout (cfg : Config) (w : World) (g : Gen) : Z :=
  if nonempty (batch g) then time_remaining cfg w g else IDLE_TIMEOUT.

(** ** The consumer loop of [run_monitoring] ([app.py], lines 64-93) *)

Module App.

(** Python's [l[-n:]] for a positive [n]: the last [n] items of [l], all of
    [l] when it has fewer. *)
Definition last_n {A : Type} (n : nat) (l : list A) : list A :=
  skipn (length l - n) l.

Record Monitor : Type := mkMonitor {
  total_logs_processed : nat;
  raw_logs_buffer : list string
}.

(** Lines 64-65. *)
Definition fresh : Monitor :=
  {| total_logs_processed := 0; raw_logs_buffer := [] |}.

(** Lines 80-93: the bookkeeping done for one batch. *)
Definition on_batch (m : Monitor) (b : list string) : Monitor :=
  let buffer := raw_logs_buffer m ++ last_n 20 b in
  {| total_logs_processed := (total_logs_processed m + length b)%nat;
     raw_logs_buffer :=
       if (50 <? length buffer)%nat then last_n 50 buffer else buffer |}.

(** The bookkeeping after the batches of a stream, in the order yielded. *)
Definition run_monitoring (bs : list (list string)) : Monitor :=
  fold_left on_batch bs fresh.

End App.

(** ** The analyzer of [agent.py] *)

Module Agent.

Inductive Severity : Type := Critical | Warning | Info.

Record IncidentReport : Type := mkIncidentReport {
  title : string;
  severity : Severity;
  impacted_services : list string;
  summary : string;
  noise_reduction_ratio : QArith_base.Q
}.

(** What [json.loads] returns. *)
#[warnings="-register-all"]
Inductive Json : Type :=
| JNull
| JBool (b : bool)
| JNumber (q : QArith_base.Q)
| JString (s : string)
| JArray (items : list Json)
| JObject (fields : list (string * Json)).

(** The text of a response, character by character. *)
Definition Text : Type := list ascii.

Definition fence : Text := list_ascii_of_string "```".

Definition fence_json : Text := list_ascii_of_string "```json".

(** [text.startswith(prefix)] *)
Fixpoint startswith (prefix text : Text) : bool :=
  match prefix, text with
  | [], _ => true
  | _ :: _, [] => false
  | a :: prefix', b :: text' => Ascii.eqb a b && startswith prefix' text'
  end.

(** [text.endswith(suffix)] *)
Definition endswith (suffix text : Text) : bool :=
  startswith (rev suffix) (rev text).

(** Lines 62-67: the clean-up of markdown fences. *)
Definition strip_fences (response_text : Text) : Text :=
  let t1 := if startswith fence_json response_text
            then skipn 7 response_text else response_text in
  let t2 := if startswith fence t1 then skipn 3 t1 else t1 in
  if endswith fence t2 then firstn (length t2 - 3) t2 else t2.

(** Lines 118-125. *)
Definition _create_fallback_report (reason : string) : IncidentReport :=
  {| title := "Analysis Failed";
     severity := Info;
     impacted_services := [];
     summary := String.append "Could not analyze logs: " reason;
     noise_reduction_ratio := QArith_base.Qmake 1 1 |}.

(** A call that may raise: the message of the exception, or the result. *)
Definition Raises (A : Type) : Type := (string + A)%type.

(** The model object: from the prompt to [response.text]. *)
Definition Model : Type := string -> Raises Text.

(** Lines 23-35: the model is there only when the package is installed and
    the key is set and not empty. *)
Definition init (genai_installed : bool) (api_key : option string)
           (generative_model : Model) : option Model :=
  if genai_installed then
    match api_key with
    | Some EmptyString => None
    | Some _ => Some generative_model
    | None => None
    end
  else None.

Section Analyzer.

(** The fixed text of the prompt before and after the logs. *)
Variables prompt_head prompt_tail : string.

(** [json.loads], and the validation done when [IncidentReport] is built
    from the fields of [data] (line 92). *)
Variable loads : Text -> Raises Json.
Variable validate : Json -> Raises IncidentReport.

(** Lines 98-116. *)
Definition _create_prompt (logs : list string) : string :=
  let log_text := String.concat (String "010"%char EmptyString) logs in
  String.append prompt_head (String.append log_text prompt_tail).

(** Line 92, inside the [try]. *)
Definition build_report (data : Json) : IncidentReport :=
  match validate data with
  | inl e => _create_fallback_report e
  | inr report => report
  end.

(** Lines 37-96. *)
Definition analyze_batch (model : option Model) (logs : list string)
  : IncidentReport :=
  match logs with
  | [] => _create_fallback_report "No logs provided"
  | _ :: _ =>
      match model with
      | None => _create_fallback_report "Missing API Key"
      | Some generate_content =>
          match generate_content (_create_prompt logs) with
          | inl e => _create_fallback_report e
          | inr response_text =>
              match loads (strip_fences response_text) with
              | inl e => _create_fallback_report e
              | inr (JArray []) =>
                  _create_fallback_report "Empty JSON list returned"
              | inr (JArray (first :: _)) => build_report first
              | inr data => build_report data
              end
          end
      end
  end.

End Analyzer.

End Agent.

(** ** The log generator of [generators.py] *)

Module Chaos.

Record Log : Type := mkLog {
  timestamp : string;
  service : string;
  level : string;
  message : string
}.

Definition SERVICES : list string :=
  ["payment-gateway"; "order-service"; "inventory-db"; "auth-service";
   "frontend-proxy"; "notification-worker"].

Definition LEVELS : list string := ["INFO"; "WARN"; "ERROR"; "DEBUG"].

Definition SIGNATURE : string :=
  "Database Connection Refused: Pool exhausted".

Record Generator : Type := mkGenerator {
  is_running : bool;
  _meltdown_mode : bool
}.

(** Lines 32-34. *)
Definition init : Generator :=
  {| is_running := false; _meltdown_mode := false |}.

(** Lines 36-37. *)
Definition toggle_meltdown (enabled : bool) (g : Generator) : Generator :=
  {| is_running := is_running g; _meltdown_mode := enabled |}.

Definition stop (g : Generator) : Generator :=
  {| is_running := false; _meltdown_mode := _meltdown_mode g |}.

(** What the random source and the clock give for one log: whether
    [random.random() < 0.7], the index drawn by each [random.choice], and
    the timestamp. *)
Record Roll : Type := mkRoll {
  spike : bool;
  pick_service : nat;
  pick_level : nat;
  pick_message : nat;
  now : string
}.

(** [random.choice(l)] when the index drawn is [k]. *)
Definition choice (l : list string) (k : nat) : string :=
  nth (k mod length l) l EmptyString.

(** Lines 93-102. *)
Definition _get_random_message (service level : string) (k : nat) : string :=
  choice [String.append "Processing request for " service;
          "Cache miss";
          "User authenticated successfully";
          "Health check passed";
          "Latency observed";
          "Retrying connection..."] k.

(** Lines 73-91. *)
Definition _generate_single_log (g : Generator) (r : Roll) : Log :=
  if _meltdown_mode g && spike r then
    {| timestamp := now r; service := "inventory-db"; level := "ERROR";
       message := SIGNATURE |}
  else
    let service := choice SERVICES (pick_service r) in
    let level := choice LEVELS (pick_level r) in
    {| timestamp := now r; service := service; level := level;
       message := _get_random_message service level (pick_message r) |}.

(** Lines 67-71. *)
Definition _create_batch (g : Generator) (count : nat) (rolls : nat -> Roll)
  : list Log :=
  map (fun i => _generate_single_log g (rolls i)) (seq 0 count).

(** What the other tasks can do while the generator is suspended. *)
Inductive Act : Type :=
| SetMeltdown (enabled : bool)
| RequestStop.

Definition act (a : Act) (g : Generator) : Generator :=
  match a with
  | SetMeltdown enabled => toggle_meltdown enabled g
  | RequestStop => stop g
  end.

(** One turn of the loop as the environment sees it: the rolls for the logs
    of the batch, and what the other tasks did while the generator was
    suspended at its yields and in its sleep (it reads nothing in between). *)
Record Turn : Type := mkTurn {
  rolls : nat -> Roll;
  interlude : list Act
}.

(** Lines 47-58. *)
Definition batch_size (g : Generator) : nat :=
  if _meltdown_mode g then 50%nat else 1%nat.

(** Lines 45-65: the strings yielded, whether the generator returned, and
    the state it is left in. *)
Fixpoint loop (dumps : Log -> string) (turns : list Turn) (g : Generator)
  : list string * bool * Generator :=
  if is_running g then
    match turns with
    | [] => ([], false, g)
    | t :: rest =>
        let logs := _create_batch g (batch_size g) (rolls t) in
        let g' := fold_left (fun g a => act a g) (interlude t) g in
        let '(more, finished, g'') := loop dumps rest g' in
        (map dumps logs ++ more, finished, g'')
    end
  else ([], true, g).

(** Lines 39-65; [dumps] is [json.dumps(asdict(log))]. *)
Definition generate_log_stream (dumps : Log -> string) (g : Generator)
           (turns : list Turn) : list string * bool * Generator :=
  loop dumps turns
    {| is_running := true; _meltdown_mode := _meltdown_mode g |}.

End Chaos.

(** A turn during which nobody switches the generator to meltdown mode. *)
Definition calm (t : Chaos.Turn) : bool :=
  forallb (fun a => match a with
                    | Chaos.SetMeltdown true => false
                    | _ => true
                    end) (Chaos.interlude t).

(** A batch yielded inside the loop, under the trigger condition. *)
Definition triggered (cfg : Config) (e : Emission) : Prop :=
  trigger e <> ByDrain /\
  flush_condition cfg (length (records e)) (elapsed e) = true.

(** What lines 94-96 add to the batches of the loop: once the generator has
    returned, the remaining buffer as one batch if it holds records. *)
Definition final_drain (r : Run) : list Emission :=
  if finished r && nonempty (batch (gen r))
  then [{| trigger := ByDrain; records := batch (gen r);
           elapsed := clock (world r) - last_flush_time (gen r) |}]
  else [].

(** The same burst after the stream has been idle for a whole window: the
    105 records are pushed together 5 s after the start and read at once. *)
Definition idle_burst_reads : list Cycle :=
  arrives (Sleep 5000 :: burst_pre) :: repeat (arrives []) 104.

(** A turn in which a record is read from the queue and nothing is pushed. *)
Definition reading (c : Cycle) : bool :=
  match outcome c with
  | Arrived => quiet c
  | _ => false
  end.

(** Three records are queued; stop is requested while the first is read. *)
Definition stopped_script : list Cycle := [arrives [Stop]].

Definition stopped_run : Run :=
  {| emitted := []; finished := false;
     world := {| clock := 0; queue := ["b"; "c"]; is_running := false;
                 history := ["a"; "b"; "c"] |};
     gen := {| batch := ["a"]; last_flush_time := 0 |} |}.

(** ** Exceptions that the loop does not catch *)

(** A turn of the loop when every exception is counted in.  Either the
    awaited read ends in one of the ways of [Outcome], which the handlers of
    lines 65 and 80 cover; or, after the environment did [acts], it is ended
    by an exception that is not an [Exception] ([asyncio.CancelledError] when
    the task is cancelled, [KeyboardInterrupt]), which line 80 does not
    catch. *)
Inductive Step : Type :=
| Handled (c : Cycle)
| Escapes (acts : list EnvAct).

(** How far the generator got: suspended in its loop, returned, or left by
    an exception that reaches the consumer. *)
Inductive Ending : Type := Suspended | Returned | Raised.

Record Trace : Type := mkTrace {
  yielded : list Emission;
  ending : Ending;
  at_world : World;
  at_gen : Gen
}.

Definition yield_first (es : list Emission) (t : Trace) : Trace :=
  {| yielded := es ++ yielded t; ending := ending t;
     at_world := at_world t; at_gen := at_gen t |}.

Definition trace_of (r : Run) : Trace :=
  {| yielded := emitted r;
     ending := if finished r then Returned else Suspended;
     at_world := world r; at_gen := gen r |}.

(** The loop of [process_stream] again, with the exceptions it lets
    through: such an exception leaves the generator from inside the [try],
    so nothing after line 55 runs, the final drain included. *)
Fixpoint loop_raising (cfg : Config) (script : list Step) (w : World)
         (g : Gen) : option Trace :=
  if is_running w || negb (queue_empty w) then
    match script with
    | [] => Some {| yielded := []; ending := Suspended;
                    at_world := w; at_gen := g |}
    | Escapes acts :: _ =>
        Some {| yielded := []; ending := Raised;
                at_world := apply_env acts w; at_gen := g |}
    | Handled c :: rest =>
        match cycle cfg c w g with
        | None => None
        | Some (es, w', g', true) =>
            Some (yield_first es (trace_of (drain w' g')))
        | Some (es, w', g', false) =>
            option_map (yield_first es) (loop_raising cfg rest w' g')
        end
    end
  else Some (trace_of (drain w g)).

Definition process_stream_raising (cfg : Config) (w : World)
           (script : list Step) : option Trace :=
  let '(w', g) := start w in loop_raising cfg script w' g.

Definition handled (s : Step) : bool :=
  match s with Handled _ => true | Escapes _ => false end.

(** The turns of a script that the handlers cover. *)
Fixpoint cycles (script : list Step) : list Cycle :=
  match script with
  | [] => []
  | Handled c :: rest => c :: cycles rest
  | Escapes _ :: rest => cycles rest
  end.

(** A record is read, the next read raises an [Exception], and the read
    after that is cancelled. *)
Definition cancelled_script : list Step :=
  [Handled (arrives [Push "a"]); Handled (faults []); Escapes []].

Definition cancelled_trace : Trace :=
  {| yielded := []; ending := Raised;
     at_world := {| clock := 0; queue := []; is_running := true;
                    history := ["a"] |};
     at_gen := {| batch := ["a"]; last_flush_time := 0 |} |}.

(** A model whose every answer comes wrapped in a [json] fence. *)
Definition fenced_answers (generate : Agent.Model) : Agent.Model :=
  fun prompt =>
    match generate prompt with
    | inl e => inl e
    | inr body => inr (Agent.fence_json ++ body ++ Agent.fence)
    end.

(** The object a report is built from (lines 74-78): the first element when
    a list was parsed. *)
Definition report_source (data : Agent.Json) : Agent.Json :=
  match data with
  | Agent.JArray (first :: _) => first
  | _ => data
  end.

(** A model that answers with a list of one object, a parser that reads
    that answer, and a validation that accepts the object. *)
Definition demo_generate : Agent.Model :=
  fun _ => inr (list_ascii_of_string "[null]").

Definition demo_loads : Agent.Text -> Agent.Raises Agent.Json :=
  fun _ => inr (Agent.JArray [Agent.JNull]).

Definition demo_validate : Agent.Json -> Agent.Raises Agent.IncidentReport :=
  fun d => match d with
           | Agent.JNull =>
               inr {| Agent.title := "Pool exhausted";
                      Agent.severity := Agent.Critical;
                      Agent.impacted_services := ["inventory-db"];
                      Agent.summary := "The pool is exhausted.";
                      Agent.noise_reduction_ratio :=
                        QArith_base.Qmake 50 1 |}
           | _ => inl "not an object"
           end.

(** * Properties *)

(** ** The environment *)

Lemma apply_env_app acts1 acts2 w :
  apply_env (acts1 ++ acts2) w = apply_env acts2 (apply_env acts1 w).
Proof. unfold apply_env. apply fold_left_app. Qed.

Lemma apply_env_closed acts : forall w,
  apply_env acts w =
  {| clock := clock w + slept acts;
     queue := queue w ++ pushed acts;
     is_running := is_running w && negb (stops acts);
     history := history w ++ pushed acts |}.
Proof.
  induction acts as [|a acts IH]; intros [t q b h]; simpl.
  - now rewrite Z.add_0_r, !app_nil_r, andb_true_r.
  - change (fold_left (fun w a => act a w) acts ?x) with (apply_env acts x).
    rewrite IH. destruct a; simpl.
    + now rewrite <- !app_assoc.
    + now rewrite andb_false_r.
    + now rewrite Z.add_assoc.
Qed.

Lemma slept_nonneg acts : 0 <= slept acts.
Proof. induction acts as [|[]]; simpl; lia. Qed.

Lemma pushed_app a b : pushed (a ++ b) = pushed a ++ pushed b.
Proof.
  induction a as [|[] a IH]; simpl; auto. now rewrite IH.
Qed.

Lemma stops_app a b : stops (a ++ b) = stops a || stops b.
Proof. induction a as [|[] a IH]; simpl; auto. Qed.

Lemma nonempty_length l : nonempty l = (0 <? length l)%nat.
Proof. now destruct l. Qed.

Lemma nonempty_false l : nonempty l = false -> l = [].
Proof. now destruct l. Qed.

(** ** Shape of a run *)

Lemma emit_first_nil r : emit_first [] r = r.
Proof. now destruct r. Qed.

Lemma option_map_emit_first_nil o : option_map (emit_first []) o = o.
Proof. destruct o; simpl; [now rewrite emit_first_nil | easy]. Qed.

Lemma emit_first_app es1 es2 r :
  emit_first (es1 ++ es2) r = emit_first es1 (emit_first es2 r).
Proof. unfold emit_first; simpl. now rewrite app_assoc. Qed.

Lemma loop_left w :
  is_running w || negb (queue_empty w) = false ->
  is_running w = false /\ queue w = [].
Proof.
  intros H. apply orb_false_iff in H as [Hr Hq]. split; auto.
  apply negb_false_iff in Hq. unfold queue_empty in Hq.
  apply negb_true_iff in Hq. now apply nonempty_false.
Qed.

Lemma cycle_break cfg c w g es w' g' :
  cycle cfg c w g = Some (es, w', g', true) ->
  is_running w' = false /\ queue w' = [].
Proof.
  unfold cycle. destruct (try_block cfg c w g) as [[[es1 w1] g1]|]; [|discriminate].
  destruct (recheck cfg c w1 g1) as [[es2 w2] g2].
  intros H. injection H as _ <- _ Hb.
  apply andb_true_iff in Hb as [Hr Hq]. apply negb_true_iff in Hr.
  split; auto. unfold queue_empty in Hq. apply negb_true_iff in Hq.
  now apply nonempty_false.
Qed.

Section Loop.

Variable cfg : Config.

(** A run is a sequence of cycles followed, once the loop is left, by the
    drain; any property of the emissions so far and of the state that every
    cycle of the script preserves holds when the script is used up or the
    loop is left. *)
Lemma loop_invariant_on (C : Cycle -> Prop)
      (P : list Emission -> World -> Gen -> Prop) :
  (forall acc w g c es w' g' b,
      C c -> P acc w g -> cycle cfg c w g = Some (es, w', g', b) ->
      P (acc ++ es) w' g') ->
  forall script acc w g r,
    Forall C script ->
    P acc w g -> loop cfg script w g = Some r ->
    exists es,
      P (acc ++ es) (world r) (gen r) /\
      emitted r =
        es ++ (if finished r then emitted (drain (world r) (gen r)) else []) /\
      (finished r = true ->
       is_running (world r) = false /\ queue (world r) = []).
Proof.
  intros step. induction script as [|c rest IH]; intros acc w g r HC HP Hrun;
    simpl in Hrun;
    (destruct (is_running w || negb (queue_empty w)) eqn:Hc;
     [| injection Hrun as <-; exists []; simpl; rewrite app_nil_r;
        repeat split; auto; now apply loop_left in Hc ]).
  - injection Hrun as <-. exists []. simpl. rewrite app_nil_r.
    repeat split; auto; discriminate.
  - destruct (cycle cfg c w g) as [[[[es w'] g'] b]|] eqn:Hcy; [|discriminate].
    inversion HC as [|? ? Hc0 HC']; subst.
    pose proof (step _ _ _ _ _ _ _ _ Hc0 HP Hcy) as HP'.
    destruct b.
    + injection Hrun as <-. exists es. simpl.
      repeat split; auto; now apply cycle_break in Hcy.
    + destruct (loop cfg rest w' g') as [r'|] eqn:Hl; [|discriminate].
      injection Hrun as <-.
      destruct (IH _ _ _ _ HC' HP' Hl) as (es' & HP'' & Hem & Hfin).
      exists (es ++ es'). simpl. rewrite app_assoc. repeat split; auto.
      * rewrite Hem. now rewrite app_assoc.
      * now apply Hfin.
      * now apply Hfin.
Qed.

Lemma loop_invariant (P : list Emission -> World -> Gen -> Prop) :
  (forall acc w g c es w' g' b,
      P acc w g -> cycle cfg c w g = Some (es, w', g', b) ->
      P (acc ++ es) w' g') ->
  forall script acc w g r,
    P acc w g -> loop cfg script w g = Some r ->
    exists es,
      P (acc ++ es) (world r) (gen r) /\
      emitted r =
        es ++ (if finished r then emitted (drain (world r) (gen r)) else []) /\
      (finished r = true ->
       is_running (world r) = false /\ queue (world r) = []).
Proof.
  intros step script acc w g r.
  apply (loop_invariant_on (fun _ => True)); eauto.
  apply Forall_forall. auto.
Qed.

(** Running a script in two parts. *)
Lemma loop_app s1 s2 : forall w g,
  loop cfg (s1 ++ s2) w g =
  match loop cfg s1 w g with
  | None => None
  | Some r1 =>
      if finished r1 then Some r1
      else option_map (emit_first (emitted r1))
             (loop cfg s2 (world r1) (gen r1))
  end.
Proof.
  induction s1 as [|c s1 IH]; intros w g.
  - cbn [app loop].
    destruct (is_running w || negb (queue_empty w)) eqn:Hc; cbn.
    + now rewrite option_map_emit_first_nil.
    + destruct s2; cbn; now rewrite Hc.
  - cbn [app loop].
    destruct (is_running w || negb (queue_empty w)) eqn:Hc; [|reflexivity].
    destruct (cycle cfg c w g) as [[[[es w'] g'] b]|]; [|reflexivity].
    destruct b; [reflexivity|]. rewrite IH.
    destruct (loop cfg s1 w' g') as [r1|]; [|reflexivity]. cbn.
    destruct (finished r1); [reflexivity|].
    destruct (loop cfg s2 (world r1) (gen r1)); [|reflexivity]. cbn.
    now rewrite emit_first_app.
Qed.

End Loop.

(** A generator left suspended is inside its loop. *)
Lemma suspended_in_loop cfg script : forall w g r,
  loop cfg script w g = Some r -> finished r = false ->
  is_running (world r) || negb (queue_empty (world r)) = true.
Proof.
  induction script as [|c rest IH]; intros w g r Hrun Hf; cbn [loop] in Hrun;
    (destruct (is_running w || negb (queue_empty w)) eqn:Hc;
     [| injection Hrun as <-; cbn in Hf; discriminate]).
  - now injection Hrun as <-.
  - destruct (cycle cfg c w g) as [[[[es w'] g'] b]|]; [|discriminate].
    destruct b; [injection Hrun as <-; cbn in Hf; discriminate|].
    destruct (loop cfg rest w' g') as [r'|] eqn:Hl; [|discriminate].
    injection Hrun as <-. cbn in Hf |- *. exact (IH _ _ _ Hl Hf).
Qed.

(** ** Case analysis of one cycle *)

Ltac break_match H :=
  repeat (cbv beta iota zeta in H;
          cbn [clock queue is_running history batch last_flush_time
               nonempty andb] in H;
          match type of H with
          | context [match ?x with _ => _ end] =>
              lazymatch x with
              | context [match _ with _ => _ end] => fail
              | _ => let E := fresh "E" in
                     destruct x eqn:E; try discriminate H
              end
          end).

(** Splits [H : cycle cfg c w g = Some (es, w', g', b)] into the paths
    through the loop body, with the interludes in closed form. *)
Ltac cycle_cases H :=
  unfold cycle, try_block, wait_for, recheck, flush in H;
  rewrite ?apply_env_closed in H;
  break_match H; cbv beta iota in H;
  injection H as <- <- <- <-;
  rewrite ?apply_env_closed in *;
  cbn [clock queue is_running history batch last_flush_time] in *.

Ltac bool_facts :=
  repeat match goal with
         | H : andb _ _ = true |- _ => apply andb_true_iff in H as [? ?]
         | H : andb _ _ = false |- _ => apply andb_false_iff in H
         | H : (_ <=? _)%nat = true |- _ => apply Nat.leb_le in H
         | H : (_ <=? _)%nat = false |- _ => apply Nat.leb_gt in H
         | H : (_ <=? _)%Z = true |- _ => apply Z.leb_le in H
         | H : (_ <=? _)%Z = false |- _ => apply Z.leb_gt in H
         | H : nonempty ?l = true |- _ => rewrite nonempty_length in H
         | H : nonempty ?l = false |- _ => apply nonempty_false in H
         | H : (_ <? _)%nat = true |- _ => apply Nat.ltb_lt in H
         | H : (_ <? _)%nat = false |- _ => apply Nat.ltb_ge in H
         end.

Section Cycle.

Variable cfg : Config.
Variables (c : Cycle) (w w' : World) (g g' : Gen).
Variables (es : list Emission) (b : bool).
Hypothesis Hcycle : cycle cfg c w g = Some (es, w', g', b).

(** No [yield] inside the loop hands over an empty list. *)
Lemma cycle_emits_nonempty :
  Forall (fun e => records e <> [] /\ trigger e <> ByDrain) es.
Proof.
  pose proof Hcycle as H. cycle_cases H; bool_facts;
    repeat constructor; cbn [records trigger]; try discriminate;
    try (intros Hnil; apply app_eq_nil in Hnil as [_ ?]; discriminate);
    try (intros Hnil; rewrite Hnil in *; simpl in *; lia).
Qed.

(** The buffer stays below the size limit from one cycle to the next; a
    size-triggered batch has exactly the limit, every other one less. *)
Lemma cycle_bounded :
  (0 < BATCH_SIZE_LIMIT cfg)%nat ->
  (length (batch g) < BATCH_SIZE_LIMIT cfg)%nat ->
  (length (batch g') < BATCH_SIZE_LIMIT cfg)%nat /\
  Forall (fun e =>
            (trigger e = BySize ->
             length (records e) = BATCH_SIZE_LIMIT cfg) /\
            (trigger e <> BySize ->
             (length (records e) < BATCH_SIZE_LIMIT cfg)%nat)) es.
Proof.
  intros Hpos Hlt. pose proof Hcycle as H. cycle_cases H; bool_facts;
    (split; [|repeat constructor]); cbn [records trigger batch length];
    rewrite ?length_app in *; cbn [length] in *;
    try discriminate; try congruence; try lia.
Qed.

(** Every [yield] inside the loop happens under the trigger condition. *)
Lemma cycle_triggered :
  Forall (fun e =>
            flush_condition cfg (length (records e)) (elapsed e) = true) es.
Proof.
  pose proof Hcycle as H. unfold flush_condition.
  cycle_cases H; bool_facts; repeat constructor; cbn [records elapsed];
    apply orb_true_iff;
    try (left; apply Nat.leb_le; lia);
    try (right; apply andb_true_iff; split;
         [apply Z.leb_le; lia | apply Nat.ltb_lt; lia]).
Qed.

(** No state that satisfies the trigger condition is carried to the next
    cycle. *)
Lemma cycle_settled :
  (0 < BATCH_SIZE_LIMIT cfg)%nat ->
  (length (batch g) < BATCH_SIZE_LIMIT cfg)%nat ->
  flush_condition cfg (length (batch g'))
    (clock w' - last_flush_time g') = false.
Proof.
  intros Hpos Hlt. pose proof Hcycle as H. unfold flush_condition.
  cycle_cases H; cbn [length];
    apply orb_false_iff; (split; [apply Nat.leb_gt|]);
    rewrite ?length_app in *; cbn [length] in *;
    bool_facts; try lia; try reflexivity; try apply andb_false_r.
  all: match goal with E : _ \/ _ |- _ => destruct E as [Hn|Ht] end;
    [| now rewrite Ht].
  all: apply nonempty_false in Hn.
  all: try (apply (f_equal (@length string)) in Hn;
            rewrite ?length_app in Hn; cbn [length] in Hn; lia).
  all: rewrite Hn; apply andb_false_r.
Qed.

End Cycle.

(** ** The final drain *)

Lemma drain_emitted w g :
  Forall (fun e => trigger e = ByDrain /\ records e = batch g /\
                   records e <> []) (emitted (drain w g)).
Proof.
  unfold drain; cbn [emitted]. destruct (batch g) eqn:Hb; simpl.
  - constructor.
  - repeat constructor. discriminate.
Qed.

Lemma tail_emitted (Q : Emission -> Prop) r :
  Forall Q (emitted (drain (world r) (gen r))) ->
  Forall Q (if finished r then emitted (drain (world r) (gen r)) else []).
Proof. destruct (finished r); auto. Qed.

(** ** Demonstration runs *)

Lemma early_stop_runs :
  process_stream default_config (init 0) early_stop_script
  = Some early_stop_run.
Proof. reflexivity. Qed.

(** ** C3: no empty batch *)

(** C3. Whatever the environment does, no batch yielded by [process_stream]
    is empty, whether it is yielded by the size trigger, by a timeout, by the
    re-check of the time limit or by the final drain; and a wait that times
    out on an empty buffer yields nothing and leaves the buffer empty. *)
Theorem no_empty_batch cfg w script r :
  process_stream cfg w script = Some r ->
  Forall (fun e => records e <> []) (emitted r) /\
  (forall c w1 g1 es w2 g2 b,
      batch g1 = [] -> outcome c = TimedOut ->
      cycle cfg c w1 g1 = Some (es, w2, g2, b) ->
      es = [] /\ batch g2 = []).
Proof.
  intros Hrun. split.
  - unfold process_stream, start in Hrun.
    apply (loop_invariant cfg
             (fun acc _ _ => Forall (fun e => records e <> []) acc))
      with (acc := []) in Hrun.
    + destruct Hrun as (es & Hes & -> & _). simpl in Hes.
      apply Forall_app. split; auto. apply tail_emitted.
      eapply Forall_impl; [|apply drain_emitted]. now intros e (_ & _ & ?).
    + intros acc w0 g0 c es w' g' b Hacc Hcy. apply Forall_app. split; auto.
      eapply Forall_impl; [|eapply cycle_emits_nonempty; eauto].
      now intros e [? _].
    + constructor.
  - intros c w1 g1 es w2 g2 b Hb Ho Hcy.
    cycle_cases Hcy; try congruence; rewrite Hb in *; try discriminate.
    all: now split.
Qed.

Lemma no_empty_batch_witness :
  Forall (fun e => records e <> []) (emitted early_stop_run) /\
  (forall c w1 g1 es w2 g2 b,
      batch g1 = [] -> outcome c = TimedOut ->
      cycle default_config c w1 g1 = Some (es, w2, g2, b) ->
      es = [] /\ batch g2 = []).
Proof.
  apply (no_empty_batch default_config (init 0) early_stop_script).
  reflexivity.
Defined.

(** ** C7: the buffer stays below the size limit *)

(** C7. With a positive size limit, the buffer that [process_stream] carries
    from one turn of its loop to the next (the state in which any script
    leaves it) is strictly shorter than [BATCH_SIZE_LIMIT]; the limit is
    reached only right after an append, where the size trigger yields the
    buffer at once, so a size-triggered batch has exactly [BATCH_SIZE_LIMIT]
    records and every other batch has fewer: no batch exceeds the limit. *)
Theorem buffer_below_limit cfg w script r :
  (0 < BATCH_SIZE_LIMIT cfg)%nat ->
  process_stream cfg w script = Some r ->
  (length (batch (gen r)) < BATCH_SIZE_LIMIT cfg)%nat /\
  Forall (within_limit cfg) (emitted r).
Proof.
  intros Hpos Hrun. unfold process_stream, start in Hrun.
  apply (loop_invariant cfg
           (fun acc _ g => (length (batch g) < BATCH_SIZE_LIMIT cfg)%nat /\
                           Forall (within_limit cfg) acc))
    with (acc := []) in Hrun.
  - destruct Hrun as (es & [Hlen Hes] & -> & _). simpl in Hes.
    split; auto. apply Forall_app. split; auto. apply tail_emitted.
    eapply Forall_impl; [|apply drain_emitted].
    intros e (Ht & Hr & _). unfold within_limit. rewrite Ht, Hr. lia.
  - intros acc w0 g0 c es w' g' b [Hlen Hacc] Hcy.
    destruct (cycle_bounded _ _ _ _ _ _ _ _ Hcy Hpos Hlen) as [Hlen' Hes].
    split; auto. apply Forall_app. split; auto.
    eapply Forall_impl; [|exact Hes]. intros e [Hs Hn]. unfold within_limit.
    destruct (trigger e); try (assert (BySize = BySize) by reflexivity);
      try (specialize (Hn ltac:(discriminate))); try lia.
    specialize (Hs eq_refl). lia.
  - simpl. split; auto.
Qed.

Lemma buffer_below_limit_witness :
  (length (batch (gen early_stop_run)) < BATCH_SIZE_LIMIT default_config)%nat
  /\ Forall (within_limit default_config) (emitted early_stop_run).
Proof.
  apply (buffer_below_limit default_config (init 0) early_stop_script).
  - simpl. lia.
  - reflexivity.
Defined.

(** ** C1: when a batch is emitted *)

(** C1 as stated fails at the final drain: one record is read, stop is
    requested meanwhile, and the record is yielded at once although the
    buffer holds 1 record of 100 and no time has passed since the last
    flush. *)
Lemma drain_ignores_triggers :
  process_stream default_config (init 0) early_stop_script
  = Some early_stop_run /\
  exists e, In e (emitted early_stop_run) /\
            flush_condition default_config
              (length (records e)) (elapsed e) = false.
Proof.
  split; [reflexivity|]. eexists. split; [left; reflexivity|reflexivity].
Qed.

(** C1, amended. With a positive size limit and waits that time out no
    earlier than asked, every batch yielded inside the loop of
    [process_stream] is yielded under the trigger condition (buffer length at
    least [BATCH_SIZE_LIMIT], or at least [BATCH_TIME_LIMIT] elapsed since
    [last_flush_time] with a non-empty buffer), and no state that satisfies
    the condition is carried to the next turn of the loop; the final drain
    instead yields the remaining buffer whenever it is non-empty, whatever
    its length and the elapsed time: what a stream has yielded is the
    batches of the loop, each under the trigger condition, followed once the
    generator has returned by the remaining buffer as one last batch if it
    holds records, and by nothing if it is empty. *)
Theorem emitted_iff_triggered_in_loop cfg w script r :
  (0 < BATCH_SIZE_LIMIT cfg)%nat ->
  process_stream cfg w script = Some r ->
  Forall (justified cfg) (emitted r) /\
  flush_condition cfg (length (pending r))
    (clock (world r) - last_flush_time (gen r)) = false /\
  exists in_loop,
    Forall (triggered cfg) in_loop /\
    emitted r = in_loop ++ final_drain r.
Proof.
  intros Hpos Hrun. unfold process_stream, start in Hrun.
  apply (loop_invariant cfg
           (fun acc w g =>
              Forall (triggered cfg) acc /\
              (length (batch g) < BATCH_SIZE_LIMIT cfg)%nat /\
              flush_condition cfg (length (batch g))
                (clock w - last_flush_time g) = false))
    with (acc := []) in Hrun.
  - destruct Hrun as (es & (Hes & Hlen & Hfc) & Hem & _). simpl in Hes.
    assert (Hdrain : (if finished r
                      then emitted (drain (world r) (gen r)) else [])
                     = final_drain r).
    { unfold final_drain, drain. cbn [emitted].
      now destruct (finished r), (nonempty (batch (gen r))). }
    rewrite Hdrain in Hem. split; [|split].
    + rewrite Hem. apply Forall_app. split.
      * eapply Forall_impl; [|exact Hes]. intros e [Hnd Hfl].
        unfold justified. destruct (trigger e); auto; congruence.
      * unfold final_drain.
        destruct (finished r && nonempty (batch (gen r))) eqn:E;
          repeat constructor.
        unfold justified. cbn [trigger records].
        apply andb_true_iff in E as [_ E]. intros Hnil.
        rewrite Hnil in E. discriminate.
    + unfold pending. destruct (finished r); auto.
      unfold flush_condition. simpl. rewrite andb_false_r, orb_false_r.
      apply Nat.leb_gt. lia.
    + exists es. split; assumption.
  - intros acc w0 g0 c es w' g' b (Hacc & Hlen & _) Hcy.
    destruct (cycle_bounded _ _ _ _ _ _ _ _ Hcy Hpos Hlen) as [Hlen' _].
    repeat split; auto.
    + apply Forall_app. split; auto.
      pose proof (cycle_triggered _ _ _ _ _ _ _ _ Hcy) as Ht.
      pose proof (cycle_emits_nonempty _ _ _ _ _ _ _ _ Hcy) as Hn.
      rewrite Forall_forall in *. intros e He. unfold triggered.
      specialize (Ht e He). destruct (Hn e He) as [_ Hnd]. now split.
    + eapply cycle_settled; eauto.
  - simpl. repeat split; auto. unfold flush_condition. simpl.
    rewrite andb_false_r, orb_false_r. apply Nat.leb_gt. lia.
Qed.

Lemma emitted_iff_triggered_in_loop_witness :
  Forall (justified default_config) (emitted window_run) /\
  flush_condition default_config (length (pending window_run))
    (clock (world window_run) - last_flush_time (gen window_run))
  = false /\
  exists in_loop,
    Forall (triggered default_config) in_loop /\
    emitted window_run = in_loop ++ final_drain window_run.
Proof.
  apply (emitted_iff_triggered_in_loop default_config
           (apply_env window_pre (init 0)) window_script).
  - simpl. lia.
  - reflexivity.
Defined.

(** ** Nothing is lost, nothing is reordered *)

(** One cycle moves records from the queue to the buffer and from the buffer
    to the consumer, in order. *)
Lemma cycle_conserves cfg c w g es w' g' b done :
  cycle cfg c w g = Some (es, w', g', b) ->
  history w = done ++ batch g ++ queue w ->
  history w' = (done ++ concat (map records es)) ++ batch g' ++ queue w'.
Proof.
  intros H Hh. cycle_cases H; rewrite Hh; cbn [map concat records app];
    repeat rewrite <- app_assoc; cbn [app];
    repeat match goal with
           | E : queue w ++ _ = _ :: _ |- _ => rewrite E
           end;
    repeat rewrite <- app_assoc; try reflexivity.
  all: match goal with
       | E : ?q ++ ?p = _ :: _ |- context [?q ++ ?p ++ ?x] =>
           rewrite (app_assoc q p x), E
       end; reflexivity.
Qed.

(** The records yielded so far, then the buffer, then the queue: together
    they are what [add_log] received, in the order it received them. *)
Lemma run_conserves cfg w script r done :
  history w = done ++ queue w ->
  process_stream cfg w script = Some r ->
  history (world r)
  = done ++ concat (batches r) ++ pending r ++ queue (world r).
Proof.
  intros Hh Hrun. unfold process_stream, start in Hrun.
  apply (loop_invariant cfg
           (fun acc w g =>
              history w
              = (done ++ concat (map records acc)) ++ batch g ++ queue w))
    with (acc := []) in Hrun.
  - destruct Hrun as (es & Hes & Hem & Hfin). cbn [app] in Hes.
    unfold batches, pending. rewrite Hem, Hes, map_app, concat_app.
    rewrite <- !app_assoc. do 2 f_equal.
    destruct (finished r) eqn:Hf; [|now cbn].
    destruct (Hfin eq_refl) as [_ ->]. unfold drain; cbn [emitted].
    destruct (batch (gen r)); cbn; now rewrite ?app_nil_r.
  - intros acc w0 g0 c es w' g' b Hacc Hcy.
    rewrite map_app, concat_app, (app_assoc done).
    eapply cycle_conserves; eauto.
  - cbn. now rewrite app_nil_r.
Qed.

Lemma apply_env_init pre t :
  history (apply_env pre (init t)) = queue (apply_env pre (init t)).
Proof. now rewrite apply_env_closed. Qed.

(** ** Positions in the flattened batches *)

Lemma locate_nth bs : forall i k o,
  locate bs i = Some (k, o) ->
  nth_error (nth k bs []) o = nth_error (concat bs) i /\
  (i < length (concat bs))%nat.
Proof.
  induction bs as [|b bs IH]; intros i k o H; cbn [locate] in H; [discriminate|].
  destruct (i <? length b)%nat eqn:Hi.
  - injection H as <- <-. apply Nat.ltb_lt in Hi. cbn.
    rewrite nth_error_app1 by assumption. rewrite length_app. split; [easy|lia].
  - apply Nat.ltb_ge in Hi.
    destruct (locate bs (i - length b)) as [[k' o']|] eqn:Hl; [|discriminate].
    injection H as <- <-. destruct (IH _ _ _ Hl) as [Hn Hlt]. cbn.
    rewrite nth_error_app2 by assumption. rewrite length_app. split; [easy|lia].
Qed.

Lemma locate_monotone bs : forall i j bi oi bj oj,
  (i < j)%nat ->
  locate bs i = Some (bi, oi) -> locate bs j = Some (bj, oj) ->
  (bi <= bj)%nat /\ (bi = bj -> (oi < oj)%nat).
Proof.
  induction bs as [|b bs IH]; intros i j bi oi bj oj Hij Hi Hj;
    cbn [locate] in Hi, Hj; [discriminate|].
  destruct (i <? length b)%nat eqn:Ei; destruct (j <? length b)%nat eqn:Ej.
  - injection Hi as <- <-. injection Hj as <- <-. split; [lia|auto].
  - injection Hi as <- <-.
    destruct (locate bs (j - length b)) as [[k o]|]; [|discriminate].
    injection Hj as <- <-. split; [lia|discriminate].
  - apply Nat.ltb_ge in Ei. apply Nat.ltb_lt in Ej. lia.
  - apply Nat.ltb_ge in Ei, Ej.
    destruct (locate bs (i - length b)) as [[k1 o1]|] eqn:H1; [|discriminate].
    destruct (locate bs (j - length b)) as [[k2 o2]|] eqn:H2; [|discriminate].
    injection Hi as <- <-. injection Hj as <- <-.
    destruct (IH (i - length b)%nat (j - length b)%nat k1 o1 k2 o2) as [Hle Hlt];
      auto; [lia|]. split; [lia|]. intros Heq. apply Hlt. lia.
Qed.

(** ** C6: order preservation *)

(** C6. On an ingestor fresh from [__init__], whatever the other tasks do
    before and during the stream: if the [i]-th and the [j]-th record passed
    to [add_log], [i < j], both sit in yielded batches, then the batch of the
    first does not come after the batch of the second, within one batch the
    first sits before the second, and the record found at each position is
    the one [add_log] received at that rank: batches list records in arrival
    order. *)
Theorem order_preserved cfg t pre script r i j bi oi bj oj :
  process_stream cfg (apply_env pre (init t)) script = Some r ->
  (i < j)%nat ->
  locate (batches r) i = Some (bi, oi) ->
  locate (batches r) j = Some (bj, oj) ->
  ((bi <= bj)%nat /\ (bi = bj -> (oi < oj)%nat)) /\
  nth_error (nth bi (batches r) []) oi = nth_error (history (world r)) i /\
  nth_error (nth bj (batches r) []) oj = nth_error (history (world r)) j.
Proof.
  intros Hrun Hij Hi Hj.
  pose proof (run_conserves cfg _ script r [] (apply_env_init pre t) Hrun)
    as Hh. cbn [app] in Hh.
  destruct (locate_nth _ _ _ _ Hi) as [Hni Hli].
  destruct (locate_nth _ _ _ _ Hj) as [Hnj Hlj].
  split; [exact (locate_monotone _ _ _ _ _ _ _ Hij Hi Hj)|].
  rewrite Hh, !nth_error_app1 by assumption. now split.
Qed.

Lemma order_preserved_witness :
  ((0 <= 1)%nat /\ (0%nat = 1%nat -> (1 < 0)%nat)) /\
  nth_error (nth 0 (batches window_run) []) 1
  = nth_error (history (world window_run)) 1 /\
  nth_error (nth 1 (batches window_run) []) 0
  = nth_error (history (world window_run)) 2.
Proof.
  apply (order_preserved default_config 0 window_pre window_script
           window_run 1 2 0 1 1 0).
  - reflexivity.
  - lia.
  - reflexivity.
  - reflexivity.
Defined.

(** ** Repeated stop requests *)

Lemma repeat_stop_summary n acts :
  slept (repeat Stop n ++ acts) = slept acts /\
  pushed (repeat Stop n ++ acts) = pushed acts.
Proof. induction n; cbn; auto. Qed.

Lemma restop_summary k acts :
  slept (restop k acts) = slept acts /\
  pushed (restop k acts) = pushed acts /\
  stops (restop k acts) = stops acts.
Proof.
  induction acts as [|a acts (Hs & Hp & Ht)]; [easy|].
  destruct a; cbn [restop slept pushed stops]; try (now rewrite ?Hs, ?Hp, ?Ht).
  cbn [repeat app slept pushed stops].
  destruct (repeat_stop_summary k (restop k acts)) as [-> ->]. auto.
Qed.

Lemma apply_env_restop k acts w :
  apply_env (restop k acts) w = apply_env acts w.
Proof.
  rewrite !apply_env_closed.
  destruct (restop_summary k acts) as (-> & -> & ->). reflexivity.
Qed.

Lemma flush_restop tr k acts w g :
  flush tr (restop k acts) w g = flush tr acts w g.
Proof. unfold flush. now rewrite apply_env_restop. Qed.

Lemma wait_for_restop timeout k c w :
  wait_for timeout (restop_cycle k c) w = wait_for timeout c w.
Proof.
  unfold wait_for, restop_cycle. cbn [on_wait outcome].
  now rewrite apply_env_restop.
Qed.

Lemma cycle_restop cfg k c w g :
  cycle cfg (restop_cycle k c) w g = cycle cfg c w g.
Proof.
  assert (Htry : try_block cfg (restop_cycle k c) w g = try_block cfg c w g).
  { unfold try_block. rewrite wait_for_restop.
    destruct (wait_for _ c w) as [[[] w1]|]; auto;
      unfold restop_cycle; cbn [on_yield]; now rewrite flush_restop. }
  unfold cycle. rewrite Htry.
  destruct (try_block cfg c w g) as [[[es1 w1] g1]|]; auto.
  unfold recheck, restop_cycle. cbn [on_recheck]. now rewrite flush_restop.
Qed.

Lemma loop_restop cfg k script : forall w g,
  loop cfg (map (restop_cycle k) script) w g = loop cfg script w g.
Proof.
  induction script as [|c script IH]; intros w g; [reflexivity|].
  cbn [map loop]. rewrite cycle_restop.
  destruct (is_running w || negb (queue_empty w)); [|reflexivity].
  destruct (cycle cfg c w g) as [[[[es w'] g'] b]|]; [|reflexivity].
  destruct b; [reflexivity|]. now rewrite IH.
Qed.

(** ** C9: starting the stream sets [is_running] *)

Lemma cycle_keeps_running cfg c w g es w' g' b :
  cycle cfg c w g = Some (es, w', g', b) ->
  unstopped c = true -> is_running w = true ->
  is_running w' = true /\ b = false.
Proof.
  unfold unstopped, cycle_acts. rewrite !stops_app, !negb_orb.
  intros H Hu Hr. apply andb_true_iff in Hu as [Hw Hu].
  apply andb_true_iff in Hu as [Hy Hk].
  cycle_cases H; rewrite Hr, ?Hw, ?Hy, ?Hk; cbn; auto.
Qed.

(** C9. The first step of [process_stream] sets [is_running] to true
    whatever it was: a stop requested before the stream starts is
    overwritten, the stream runs exactly as if it had not been requested,
    and as long as no stop is requested during the stream the flag stays
    true and the generator does not return. *)
Theorem start_rearms cfg w script r :
  forallb unstopped script = true ->
  process_stream cfg w script = Some r ->
  is_running (fst (start w)) = true /\
  process_stream cfg (stop w) script = Some r /\
  finished r = false /\ is_running (world r) = true.
Proof.
  intros Hu Hrun. split; [reflexivity|]. split; [exact Hrun|].
  unfold process_stream, start in Hrun.
  apply (loop_invariant_on cfg (fun c => unstopped c = true)
           (fun _ w _ => is_running w = true)) with (acc := []) in Hrun.
  - destruct Hrun as (_ & Hr & _ & Hfin). split; auto.
    destruct (finished r); auto. destruct (Hfin eq_refl). congruence.
  - intros acc w0 g0 c es w' g' b Hc Hr Hcy.
    now destruct (cycle_keeps_running _ _ _ _ _ _ _ _ Hcy Hc Hr).
  - apply Forall_forall. now apply forallb_forall.
  - reflexivity.
Qed.

Lemma start_rearms_witness :
  is_running (fst (start (init 0))) = true /\
  process_stream default_config (stop (init 0)) fault_script
  = Some fault_run /\
  finished fault_run = false /\ is_running (world fault_run) = true.
Proof.
  apply (start_rearms default_config (init 0) fault_script fault_run);
    reflexivity.
Defined.

(** ** C10: the window is not restarted while idle *)



(** ** C5: a fault in the queue read *)

(** C5 as stated fails: after a read that raised, the record buffered
    before is neither yielded nor is the stream ended; the loop goes on,
    reads the next record into the same buffer and ends only when stop is
    requested. *)
Lemma fault_does_not_stop :
  process_stream default_config (init 0) fault_script = Some fault_run /\
  emitted fault_run = [] /\ finished fault_run = false /\
  batch (gen fault_run) = ["a"] /\
  process_stream default_config (init 0) resumed_script = Some resumed_run /\
  batches resumed_run = [["a"; "b"]].
Proof. repeat split. Qed.

(** A read that raises an [Exception] changes nothing: the turn of the loop
    is the re-check of the time limit and the exit test, and while the
    stream is running and no stop is requested the loop goes on. *)
Lemma fault_step cfg c rest w g :
  outcome c = Faulted ->
  exists es w' g',
    cycle cfg c w g
    = Some (es, w', g', negb (is_running w') && queue_empty w') /\
    recheck cfg c (apply_env (on_wait c) w) g = (es, w', g') /\
    (es = [] -> g' = g /\ w' = apply_env (on_wait c) w) /\
    (is_running w = true -> unstopped c = true ->
     is_running w' = true /\
     loop cfg (c :: rest) w g
     = option_map (emit_first es) (loop cfg rest w' g')).
Proof.
  intros Ho.
  destruct (recheck cfg c (apply_env (on_wait c) w) g) as [[es w'] g'] eqn:Hre.
  assert (Hcy : cycle cfg c w g
                = Some (es, w', g', negb (is_running w') && queue_empty w')).
  { unfold cycle, try_block, wait_for. rewrite Ho. cbn [app]. now rewrite Hre. }
  exists es, w', g'. split; [exact Hcy|]. split; [reflexivity|]. split.
  - intros Hes. unfold recheck, flush in Hre.
    destruct (nonempty (batch g) && _); injection Hre as <- <- <-;
      [discriminate|now split].
  - intros Hr Hu.
    destruct (cycle_keeps_running _ _ _ _ _ _ _ _ Hcy Hu Hr) as [Hr' Hb].
    split; [exact Hr'|]. cbn [loop]. now rewrite Hr, Hcy, Hb.
Qed.

(** As long as every turn is covered by the handlers, the stream with its
    exceptions counted in is the stream. *)
Lemma loop_raising_handled cfg script : forall w g,
  forallb handled script = true ->
  loop_raising cfg script w g
  = option_map trace_of (loop cfg (cycles script) w g).
Proof.
  induction script as [|s rest IH]; intros w g Hh;
    cbn [loop_raising cycles].
  - cbn [loop]. now destruct (is_running w || negb (queue_empty w)).
  - destruct s as [c|acts]; [|discriminate]. cbn [forallb handled] in Hh.
    cbn [loop]. destruct (is_running w || negb (queue_empty w)); [|reflexivity].
    destruct (cycle cfg c w g) as [[[[es w'] g'] b]|]; [|reflexivity].
    destruct b; [reflexivity|]. rewrite IH by exact Hh.
    now destruct (loop cfg (cycles rest) w' g').
Qed.

Lemma loop_raising_app cfg s1 s2 : forall w g,
  forallb handled s1 = true ->
  loop_raising cfg (s1 ++ s2) w g =
  match loop cfg (cycles s1) w g with
  | None => None
  | Some r1 =>
      if finished r1 then Some (trace_of r1)
      else option_map (yield_first (emitted r1))
             (loop_raising cfg s2 (world r1) (gen r1))
  end.
Proof.
  assert (Hnil : forall o, option_map (yield_first []) o = o).
  { intros [[? ? ? ?]|]; reflexivity. }
  induction s1 as [|s s1 IH]; intros w g Hh.
  - cbn [app cycles loop].
    destruct (is_running w || negb (queue_empty w)) eqn:Hc; cbn.
    + now rewrite Hnil.
    + destruct s2 as [|[c|acts] s2]; cbn; now rewrite Hc.
  - destruct s as [c|acts]; [|discriminate]. cbn [forallb handled] in Hh.
    cbn [app cycles loop loop_raising].
    destruct (is_running w || negb (queue_empty w)); [|reflexivity].
    destruct (cycle cfg c w g) as [[[[es w'] g'] b]|]; [|reflexivity].
    destruct b; [reflexivity|]. rewrite IH by exact Hh.
    destruct (loop cfg (cycles s1) w' g') as [r1|]; [|reflexivity]. cbn.
    destruct (finished r1); [reflexivity|].
    destruct (loop_raising cfg s2 (world r1) (gen r1)); [|reflexivity]. cbn.
    unfold yield_first. cbn. now rewrite app_assoc.
Qed.

(** C5, amended. An [Exception] raised by the queue read (other than the
    timeout) is caught inside the loop and never reaches the consumer, and
    it is not a stop signal: a stream whose reads end only in the ways the
    handlers cover never ends by raising and is the stream described so far;
    after such a fault the buffer and [is_running] are as they were, the
    time limit is re-checked, and while the stream is running and no stop is
    requested the loop continues with its next turn.  An exception that is
    not an [Exception] (the cancellation of the task) is not caught: it
    reaches the consumer, nothing more is yielded and the records in the
    buffer are not emitted. *)
Theorem only_exception_is_swallowed cfg w script t :
  process_stream_raising cfg w script = Some t ->
  (forallb handled script = true ->
   ending t <> Raised /\
   exists r, process_stream cfg w (cycles script) = Some r /\
             t = trace_of r) /\
  (forall s1 acts rest r1,
      script = s1 ++ Escapes acts :: rest ->
      forallb handled s1 = true ->
      process_stream cfg w (cycles s1) = Some r1 ->
      finished r1 = false ->
      ending t = Raised /\ yielded t = emitted r1 /\ at_gen t = gen r1) /\
  (forall c rest w1 g1,
      outcome c = Faulted -> is_running w1 = true -> unstopped c = true ->
      exists es w' g',
        recheck cfg c (apply_env (on_wait c) w1) g1 = (es, w', g') /\
        (es = [] -> g' = g1) /\
        is_running w' = true /\
        loop_raising cfg (Handled c :: rest) w1 g1
        = option_map (yield_first es) (loop_raising cfg rest w' g')).
Proof.
  intros Hrun. unfold process_stream_raising, process_stream, start in *.
  split; [|split].
  - intros Hh. rewrite loop_raising_handled in Hrun by exact Hh.
    destruct (loop cfg (cycles script) _ _) as [r|]; [|discriminate].
    injection Hrun as <-. split; [|now exists r].
    cbn. now destruct (finished r).
  - intros s1 acts rest r1 -> Hh Hr1 Hf.
    rewrite loop_raising_app, Hr1, Hf in Hrun by exact Hh.
    cbn [loop_raising] in Hrun.
    rewrite (suspended_in_loop _ _ _ _ _ Hr1 Hf) in Hrun.
    injection Hrun as <-. cbn. now rewrite app_nil_r.
  - intros c rest w1 g1 Ho Hr Hu.
    destruct (fault_step cfg c [] w1 g1 Ho)
      as (es & w' & g' & Hcy & Hre & Hsame & Hgo).
    destruct (Hgo Hr Hu) as [Hr' _].
    exists es, w', g'. split; [exact Hre|].
    split; [intros Hes; now destruct (Hsame Hes)|]. split; [exact Hr'|].
    cbn [loop_raising]. rewrite Hr, Hcy, Hr'. reflexivity.
Qed.

Lemma only_exception_is_swallowed_witness :
  (forallb handled cancelled_script = true ->
   ending cancelled_trace <> Raised /\
   exists r, process_stream default_config (init 0) (cycles cancelled_script)
             = Some r /\
             cancelled_trace = trace_of r) /\
  (forall s1 acts rest r1,
      cancelled_script = s1 ++ Escapes acts :: rest ->
      forallb handled s1 = true ->
      process_stream default_config (init 0) (cycles s1) = Some r1 ->
      finished r1 = false ->
      ending cancelled_trace = Raised /\
      yielded cancelled_trace = emitted r1 /\
      at_gen cancelled_trace = gen r1) /\
  (forall c rest w1 g1,
      outcome c = Faulted -> is_running w1 = true -> unstopped c = true ->
      exists es w' g',
        recheck default_config c (apply_env (on_wait c) w1) g1
        = (es, w', g') /\
        (es = [] -> g' = g1) /\
        is_running w' = true /\
        loop_raising default_config (Handled c :: rest) w1 g1
        = option_map (yield_first es)
            (loop_raising default_config rest w' g')).
Proof.
  apply (only_exception_is_swallowed default_config (init 0)
           cancelled_script cancelled_trace).
  reflexivity.
Defined.

(** ** After the last input *)

Lemma quiet_parts c :
  quiet c = true ->
  pushed (on_wait c) = [] /\ pushed (on_yield c) = [] /\
  pushed (on_recheck c) = [].
Proof.
  unfold quiet, cycle_acts. rewrite !pushed_app.
  destruct (pushed (on_wait c)); [|discriminate].
  destruct (pushed (on_yield c)); [|discriminate].
  destruct (pushed (on_recheck c)); [|discriminate]. auto.
Qed.

(** With an empty queue and no input, a cycle yields the buffer or leaves
    it alone. *)
Lemma cycle_quiet cfg c w g es w' g' b :
  cycle cfg c w g = Some (es, w', g', b) ->
  quiet c = true -> queue w = [] ->
  queue w' = [] /\
  ((es = [] /\ batch g' = batch g) \/
   (map records es = [batch g] /\ batch g <> [] /\ batch g' = [])).
Proof.
  intros H Hq Hw. destruct (quiet_parts c Hq) as (Hp1 & Hp2 & Hp3).
  cycle_cases H; rewrite ?Hw, ?Hp1, ?Hp2, ?Hp3 in *; cbn [app] in *;
    try discriminate; bool_facts.
  all: split; [reflexivity|].
  all: try (left; now split).
  all: right; repeat split; auto; intros Hnil; rewrite Hnil in *;
    cbn in *; lia.
Qed.

Lemma cycle_stopped cfg c w g es w' g' b :
  cycle cfg c w g = Some (es, w', g', b) ->
  stops (on_wait c) = true -> is_running w' = false.
Proof.
  intros H Hs. cycle_cases H; rewrite Hs; cbn [negb];
    now rewrite andb_false_r.
Qed.

Lemma batches_emit_first es r :
  batches (emit_first es r) = map records es ++ batches r.
Proof. unfold batches, emit_first. cbn. apply map_app. Qed.

Lemma batches_drain w g :
  batches (drain w g) = if nonempty (batch g) then [batch g] else [].
Proof. unfold batches, drain. cbn. now destruct (nonempty (batch g)). Qed.

(** Once the queue is empty and nothing more is pushed, a stream that
    finishes yields the buffer once if it holds records, and nothing else. *)
Lemma quiet_tail cfg script : forall w g r,
  forallb quiet script = true -> queue w = [] ->
  loop cfg script w g = Some r -> finished r = true ->
  batches r = if nonempty (batch g) then [batch g] else [].
Proof.
  induction script as [|c rest IH]; intros w g r Hq Hw Hrun Hf;
    cbn [loop] in Hrun;
    (destruct (is_running w || negb (queue_empty w));
     [| injection Hrun as <-; apply batches_drain]).
  - injection Hrun as <-. discriminate.
  - cbn [forallb] in Hq. apply andb_true_iff in Hq as [Hc Hq].
    destruct (cycle cfg c w g) as [[[[es w'] g'] b]|] eqn:Hcy; [|discriminate].
    destruct (cycle_quiet _ _ _ _ _ _ _ _ Hcy Hc Hw) as [Hw' Hes].
    assert (Hrest : forall r', finished r' = true ->
              batches r' = (if nonempty (batch g') then [batch g'] else []) ->
              batches (emit_first es r')
              = if nonempty (batch g) then [batch g] else []).
    { intros r' _ Hr'. rewrite batches_emit_first, Hr'.
      destruct Hes as [[-> ->]|(-> & Hne & ->)]; [reflexivity|].
      destruct (batch g); [congruence|reflexivity]. }
    destruct b.
    + injection Hrun as <-. apply Hrest; [reflexivity|apply batches_drain].
    + destruct (loop cfg rest w' g') as [r'|] eqn:Hl; [|discriminate].
      injection Hrun as <-. apply Hrest; [exact Hf|].
      eapply IH; eauto.
Qed.

(** A stop request during a wait, with an empty queue and no input, ends the
    stream in that turn of the loop. *)
Lemma stop_ends_loop cfg c w g :
  queue w = [] -> stops (on_wait c) = true -> quiet c = true ->
  consistent cfg c w g = true ->
  exists r, finished r = true /\
            forall rest, loop cfg (c :: rest) w g = Some r.
Proof.
  intros Hw Hs Hq Hcy. unfold consistent in Hcy. cbn [loop].
  destruct (is_running w || negb (queue_empty w));
    [|exists (drain w g); split; reflexivity].
  destruct (cycle cfg c w g) as [[[[es w'] g'] b]|] eqn:Hc; [|discriminate].
  pose proof (cycle_stopped _ _ _ _ _ _ _ _ Hc Hs) as Hr.
  destruct (cycle_quiet _ _ _ _ _ _ _ _ Hc Hq Hw) as [Hw' _].
  assert (b = true) as ->.
  { unfold cycle in Hc.
    destruct (try_block cfg c w g) as [[[? ?] ?]|]; [|discriminate].
    destruct (recheck cfg c _ _) as [[? ?] ?]. injection Hc as _ <- _ <-.
    unfold queue_empty. now rewrite Hr, Hw'. }
  exists (emit_first es (drain w' g')); split; reflexivity.
Qed.

(** ** C4: drain on stop *)

(** C4. Let the stream be suspended in its wait with a non-empty buffer and
    an empty queue.  If stop is requested during that wait and nothing more
    is pushed, then however the wait ends (by its timeout or by a fault), the
    stream yields exactly one more batch, the whole buffer, and the generator
    returns. *)
Theorem drain_on_stop cfg w0 s1 r1 c rest :
  process_stream cfg w0 s1 = Some r1 -> finished r1 = false ->
  batch (gen r1) <> [] -> queue (world r1) = [] ->
  stops (on_wait c) = true -> quiet c = true ->
  consistent cfg c (world r1) (gen r1) = true ->
  exists r,
    process_stream cfg w0 (s1 ++ c :: rest) = Some r /\
    finished r = true /\
    batches r = batches r1 ++ [batch (gen r1)].
Proof.
  intros Hrun Hf Hb Hw Hs Hq Hcy. unfold process_stream, start in *.
  rewrite loop_app, Hrun, Hf.
  destruct (stop_ends_loop cfg c _ _ Hw Hs Hq Hcy) as (r & Hfr & Hr).
  exists (emit_first (emitted r1) r). rewrite Hr. repeat split; auto.
  rewrite batches_emit_first. f_equal.
  assert (Hone : forallb quiet [c] = true) by (cbn; now rewrite Hq).
  rewrite (quiet_tail cfg [c] _ _ r Hone Hw (Hr []) Hfr).
  destruct (batch (gen r1)); [congruence|reflexivity].
Qed.

Lemma drain_on_stop_witness :
  exists r,
    process_stream default_config (init 0)
      (buffered_script ++ times_out [Stop; Sleep 5000] :: []) = Some r /\
    finished r = true /\
    batches r = batches buffered_run ++ [batch (gen buffered_run)].
Proof.
  apply (drain_on_stop default_config (init 0) buffered_script buffered_run
           (times_out [Stop; Sleep 5000]) []); try reflexivity.
  discriminate.
Defined.

(** ** C8: stop is idempotent and discards nothing *)

(** Reading a queued record after stop: the record goes to the buffer (or is
    yielded with it), the rest of the queue stays, and the loop is left
    exactly when the queue is empty. *)
Lemma cycle_reads cfg c w g x q :
  reading c = true -> queue w = x :: q -> is_running w = false ->
  exists es w' g',
    cycle cfg c w g = Some (es, w', g', queue_empty w') /\
    queue w' = q /\ is_running w' = false /\
    concat (map records es) ++ batch g' = batch g ++ [x].
Proof.
  unfold reading. intros Hread Hq Hr.
  destruct (outcome c) eqn:Ho; try discriminate.
  destruct (quiet_parts c Hread) as (Hp1 & Hp2 & Hp3).
  destruct (cycle cfg c w g) as [[[[es w'] g'] b]|] eqn:Hcy.
  - exists es, w', g'.
    assert (Hfacts : queue w' = q /\ is_running w' = false /\
                     concat (map records es) ++ batch g' = batch g ++ [x]).
    { pose proof Hcy as H.
      cycle_cases H; try congruence;
        rewrite ?Hq, ?Hp1, ?Hp2, ?Hp3, ?Hr, ?app_nil_r in *;
        cbn [app andb map concat records] in *;
        match goal with E : _ :: _ = _ :: _ |- _ => injection E as <- <- end;
        rewrite ?app_nil_r; auto. }
    destruct Hfacts as (Hq' & Hr' & Hc). repeat split; auto.
    unfold cycle in Hcy.
    destruct (try_block cfg c w g) as [[[? ?] ?]|]; [|discriminate].
    destruct (recheck cfg c _ _) as [[? ?] ?]. injection Hcy as <- <- <- <-.
    now rewrite Hr'.
  - exfalso. unfold cycle in Hcy.
    assert (Htry : try_block cfg c w g <> None).
    { unfold try_block, wait_for. rewrite Ho, apply_env_closed.
      cbn [queue]. rewrite Hq. cbn [app].
      destruct (_ <=? _)%nat; discriminate. }
    destruct (try_block cfg c w g) as [[[? ?] ?]|]; [|congruence].
    destruct (recheck cfg c _ _) as [[? ?] ?]. discriminate.
Qed.

(** After stop the loop reads the queue to its end: the stream returns and
    has yielded the buffer and every queued record, in order. *)
Lemma drains_queue cfg reads : forall w g,
  forallb reading reads = true -> is_running w = false ->
  (length (queue w) <= length reads)%nat ->
  exists r,
    loop cfg reads w g = Some r /\ finished r = true /\
    concat (batches r) = batch g ++ queue w.
Proof.
  assert (Hdrain : forall w g, concat (batches (drain w g)) = batch g).
  { intros w g. rewrite batches_drain.
    destruct (batch g); cbn; now rewrite ?app_nil_r. }
  induction reads as [|c rest IH]; intros w g Hreads Hr Hlen.
  - destruct (queue w) eqn:Hq; [|cbn in Hlen; lia].
    exists (drain w g). split; [|split; [reflexivity|]].
    + cbn [loop]. unfold queue_empty. now rewrite Hr, Hq.
    + now rewrite Hdrain, app_nil_r.
  - cbn [forallb] in Hreads. apply andb_true_iff in Hreads as [Hc Hrest].
    destruct (queue w) as [|x q] eqn:Hq.
    + exists (drain w g). split; [|split; [reflexivity|]].
      * cbn [loop]. unfold queue_empty. now rewrite Hr, Hq.
      * now rewrite Hdrain, app_nil_r.
    + destruct (cycle_reads cfg c w g x q Hc Hq Hr)
        as (es & w' & g' & Hcy & Hq' & Hr' & Hcons).
      cbn [loop]. unfold queue_empty at 1. rewrite Hr, Hq. cbn [nonempty negb orb].
      rewrite Hcy. unfold queue_empty. rewrite Hq'.
      destruct q as [|y q'].
      * cbn [nonempty negb]. eexists. split; [reflexivity|].
        split; [reflexivity|].
        rewrite batches_emit_first, concat_app, Hdrain. exact Hcons.
      * cbn [nonempty negb].
        destruct (IH w' g' Hrest Hr') as (r' & Hl & Hf & Hb).
        { rewrite Hq'. cbn [length] in *. lia. }
        rewrite Hl. cbn [option_map]. eexists. split; [reflexivity|].
        split; [exact Hf|].
        rewrite batches_emit_first, concat_app, Hb, Hq'.
        rewrite app_assoc, Hcons, <- app_assoc. reflexivity.
Qed.

(** C8. Requesting stop repeatedly is requesting it once: [stop] is
    idempotent on the ingestor and changes nothing once [is_running] is
    false, and a stream in which every stop request is repeated [k] more
    times yields the same batches and ends in the same state.  Stop
    discards nothing: at any moment the records yielded, then those
    buffered, then those queued are exactly the records [add_log] received;
    once the stream has finished every one of them has been yielded; and a
    stream that was stopped with records still queued has not returned: it
    reads them all, yields every record received before the stop, and then
    returns. *)
Theorem stop_idempotent_lossless cfg t pre script r k :
  process_stream cfg (apply_env pre (init t)) script = Some r ->
  (forall w, stop (stop w) = stop w) /\
  (forall w, is_running w = false -> stop w = w) /\
  process_stream cfg (apply_env (restop k pre) (init t))
    (map (restop_cycle k) script) = Some r /\
  history (world r) = concat (batches r) ++ pending r ++ queue (world r) /\
  (finished r = true -> concat (batches r) = history (world r)) /\
  (finished r = false -> is_running (world r) = false ->
   queue (world r) <> [] /\
   forall reads,
     forallb reading reads = true ->
     (length (queue (world r)) <= length reads)%nat ->
     exists r',
       process_stream cfg (apply_env pre (init t)) (script ++ reads)
       = Some r' /\
       finished r' = true /\
       concat (batches r') = history (world r)).
Proof.
  intros Hrun.
  pose proof (run_conserves cfg _ script r [] (apply_env_init pre t) Hrun)
    as Hh. cbn [app] in Hh.
  split; [reflexivity|]. split; [now intros [? ? ? ?]; cbn; intros ->|].
  split; [|split; [exact Hh|split]].
  - rewrite apply_env_restop. unfold process_stream, start in *.
    now rewrite loop_restop.
  - intros Hf. unfold process_stream, start in Hrun.
    apply (loop_invariant cfg (fun _ _ _ => True)) with (acc := []) in Hrun;
      auto.
    destruct Hrun as (_ & _ & _ & Hfin). destruct (Hfin Hf) as [_ Hq].
    rewrite Hh, Hq. unfold pending. rewrite Hf. now rewrite !app_nil_r.
  - intros Hf Hr. unfold process_stream, start in *. split.
    + pose proof (suspended_in_loop _ _ _ _ _ Hrun Hf) as Hgo.
      rewrite Hr in Hgo. cbn [orb] in Hgo. unfold queue_empty in Hgo.
      intros Hq. rewrite Hq in Hgo. discriminate.
    + intros reads Hreads Hlen.
      destruct (drains_queue cfg reads (world r) (gen r) Hreads Hr Hlen)
        as (r' & Hl & Hf' & Hb).
      exists (emit_first (emitted r) r').
      rewrite loop_app, Hrun, Hf, Hl. cbn [option_map].
      split; [reflexivity|]. split; [exact Hf'|].
      rewrite batches_emit_first, concat_app, Hb, Hh.
      unfold pending, batches. now rewrite Hf.
Qed.

Lemma stop_idempotent_lossless_witness :
  (forall w, stop (stop w) = stop w) /\
  (forall w, is_running w = false -> stop w = w) /\
  process_stream default_config (apply_env (restop 2 window_pre) (init 0))
    (map (restop_cycle 2) stopped_script) = Some stopped_run /\
  history (world stopped_run)
  = concat (batches stopped_run) ++ pending stopped_run
    ++ queue (world stopped_run) /\
  (finished stopped_run = true ->
   concat (batches stopped_run) = history (world stopped_run)) /\
  (finished stopped_run = false -> is_running (world stopped_run) = false ->
   queue (world stopped_run) <> [] /\
   forall reads,
     forallb reading reads = true ->
     (length (queue (world stopped_run)) <= length reads)%nat ->
     exists r',
       process_stream default_config (apply_env window_pre (init 0))
         (stopped_script ++ reads) = Some r' /\
       finished r' = true /\
       concat (batches r') = history (world stopped_run)).
Proof.
  apply (stop_idempotent_lossless default_config 0 window_pre stopped_script
           stopped_run 2).
  reflexivity.
Defined.

(** ** Within one window *)

(** The clock does not run backwards, [last_flush_time] is a reading of it,
    and a batch that is not size-triggered is yielded only once the window
    has elapsed. *)
Lemma cycle_timing cfg c w g es w' g' b :
  cycle cfg c w g = Some (es, w', g', b) ->
  last_flush_time g <= clock w ->
  clock w <= clock w' /\
  last_flush_time g <= last_flush_time g' /\
  last_flush_time g' <= clock w' /\
  Forall (fun e => trigger e = BySize \/
                   last_flush_time g + BATCH_TIME_LIMIT cfg <= clock w') es.
Proof.
  intros H Hlf.
  pose proof (slept_nonneg (on_wait c)).
  pose proof (slept_nonneg (on_yield c)).
  pose proof (slept_nonneg (on_recheck c)).
  cycle_cases H; bool_facts;
    (split; [lia|]); (split; [lia|]); (split; [lia|]);
    repeat (apply Forall_cons || apply Forall_nil); cbn [trigger];
    first [left; reflexivity | right; lia].
Qed.

(** As long as the clock is within one window of the start of the stream,
    every batch yielded inside the loop is size-triggered and full. *)
Lemma one_window cfg w script r :
  (0 < BATCH_SIZE_LIMIT cfg)%nat ->
  process_stream cfg w script = Some r ->
  clock (world r) - clock w < BATCH_TIME_LIMIT cfg ->
  exists es,
    emitted r
    = es ++ (if finished r then emitted (drain (world r) (gen r)) else []) /\
    Forall (fun e => length (records e) = BATCH_SIZE_LIMIT cfg) es /\
    (length (batch (gen r)) < BATCH_SIZE_LIMIT cfg)%nat.
Proof.
  intros Hpos Hrun Hwin. unfold process_stream, start in Hrun.
  apply (loop_invariant cfg
           (fun acc w1 g1 =>
              clock w <= last_flush_time g1 /\
              last_flush_time g1 <= clock w1 /\
              (length (batch g1) < BATCH_SIZE_LIMIT cfg)%nat /\
              (clock w1 < clock w + BATCH_TIME_LIMIT cfg ->
               Forall (fun e => length (records e) = BATCH_SIZE_LIMIT cfg)
                 acc)))
    with (acc := []) in Hrun.
  - destruct Hrun as (es & (_ & _ & Hlen & Hes) & Hem & _).
    exists es. repeat split; auto. apply Hes. lia.
  - intros acc w1 g1 c es w2 g2 b (Hst & Hlf & Hlen & Hacc) Hcy.
    destruct (cycle_timing _ _ _ _ _ _ _ _ Hcy Hlf) as (Hc & Hl1 & Hl2 & Ht).
    destruct (cycle_bounded _ _ _ _ _ _ _ _ Hcy Hpos Hlen) as [Hlen' Hb].
    repeat split; auto; try lia.
    intros Hw2. apply Forall_app. split; [apply Hacc; lia|].
    rewrite Forall_forall in *. intros e He.
    destruct (Ht e He) as [Hs|Hlate]; [|lia].
    now apply (Hb e He).
  - cbn. repeat split; auto; lia.
Qed.

Lemma length_concat_full n (bs : list (list string)) :
  Forall (fun b => length b = n) bs ->
  length (concat bs) = (length bs * n)%nat.
Proof.
  induction 1 as [|b bs Hb _ IH]; [reflexivity|].
  cbn [concat length]. rewrite length_app, IH, Hb. lia.
Qed.

(** ** C2: size trigger, then the remainder *)

(** C2 as stated fails when the stream has been idle: 105 records pushed
    together and read at once, 5 s after the start of the stream and
    followed by stop, are yielded as batches of 1, 100 and 4 records, not
    100 and 5, because the window that the first record falls into has
    already elapsed. *)
Lemma burst_after_idle_window :
  exists r1 r,
    process_stream default_config (init 0) idle_burst_reads = Some r1 /\
    length (history (world r1)) = 105%nat /\
    queue (world r1) = [] /\
    clock (world r1) = 5000 /\
    process_stream default_config (init 0) (idle_burst_reads ++ burst_tail)
    = Some r /\
    finished r = true /\
    map (@length string) (batches r) = [1%nat; 100%nat; 4%nat].
Proof.
  eexists. eexists.
  split; [vm_compute; reflexivity|].
  split; [vm_compute; reflexivity|].
  split; [reflexivity|]. split; [reflexivity|].
  split; [vm_compute; reflexivity|].
  split; reflexivity.
Qed.

(** C2, amended. On an ingestor fresh from [__init__], let a first part of
    the stream take in exactly [BATCH_SIZE_LIMIT + k] records,
    [0 < k < BATCH_SIZE_LIMIT], all of them read from the queue within less
    than [BATCH_TIME_LIMIT] of the start of the stream, and let nothing more
    be pushed afterwards.  Then every such stream that finishes has yielded
    exactly two batches, the first [BATCH_SIZE_LIMIT] records and then the
    remaining [k], in the order of arrival; and it does finish as soon as
    stop is requested during the wait that follows. *)
Theorem size_trigger_then_remainder cfg t pre s1 s2 r1 k :
  (0 < k < BATCH_SIZE_LIMIT cfg)%nat ->
  process_stream cfg (apply_env pre (init t)) s1 = Some r1 ->
  length (history (world r1)) = (BATCH_SIZE_LIMIT cfg + k)%nat ->
  queue (world r1) = [] ->
  clock (world r1) - clock (apply_env pre (init t)) < BATCH_TIME_LIMIT cfg ->
  forallb quiet s2 = true ->
  (forall r,
      process_stream cfg (apply_env pre (init t)) (s1 ++ s2) = Some r ->
      finished r = true ->
      map (@length string) (batches r) = [BATCH_SIZE_LIMIT cfg; k] /\
      concat (batches r) = history (world r1)) /\
  (forall c rest,
      s2 = c :: rest -> stops (on_wait c) = true ->
      consistent cfg c (world r1) (gen r1) = true ->
      exists r,
        process_stream cfg (apply_env pre (init t)) (s1 ++ s2) = Some r /\
        finished r = true).
Proof.
  intros Hk Hrun Hlen Hq Hwin Hquiet.
  assert (Hpos : (0 < BATCH_SIZE_LIMIT cfg)%nat) by lia.
  destruct (one_window _ _ _ _ Hpos Hrun Hwin) as (es & Hem & Hfull & Hb).
  pose proof (run_conserves cfg _ s1 r1 [] (apply_env_init pre t) Hrun) as Hh.
  cbn [app] in Hh. rewrite Hq, app_nil_r in Hh.
  (* what has been yielded or buffered when all records are in *)
  assert (Hsplit : history (world r1)
                   = concat (map records es) ++ batch (gen r1)).
  { rewrite Hh. unfold batches, pending. rewrite Hem, map_app, concat_app.
    rewrite <- app_assoc. f_equal.
    destruct (finished r1); [|reflexivity].
    unfold drain; cbn [emitted].
    destruct (batch (gen r1)); cbn; now rewrite ?app_nil_r. }
  assert (Hcount : length es = 1%nat /\ length (batch (gen r1)) = k).
  { apply (f_equal (@length string)) in Hsplit.
    rewrite length_app, Hlen in Hsplit.
    rewrite (length_concat_full (BATCH_SIZE_LIMIT cfg)) in Hsplit.
    - rewrite length_map in Hsplit.
      destruct (length es) as [|[|n]]; [lia|lia|].
      cbn [Nat.mul] in Hsplit. lia.
    - apply Forall_map. exact Hfull. }
  destruct Hcount as [Hone Hrem].
  destruct es as [|e [|? ?]]; try discriminate. clear Hone.
  pose proof (Forall_inv Hfull) as He. cbn beta in He.
  assert (Hne : nonempty (batch (gen r1)) = true).
  { destruct (batch (gen r1)); [cbn in Hrem; lia|reflexivity]. }
  split.
  - intros r Hr Hf. unfold process_stream, start in Hr, Hrun.
    rewrite loop_app, Hrun in Hr.
    assert (Hbs : batches r = [records e; batch (gen r1)]).
    { destruct (finished r1) eqn:Hf1.
      - injection Hr as <-. unfold batches. rewrite Hem.
        unfold drain; cbn [emitted]. now rewrite Hne.
      - destruct (loop cfg s2 (world r1) (gen r1)) as [r2|] eqn:Hl;
          [|discriminate].
        injection Hr as <-. rewrite batches_emit_first.
        rewrite (quiet_tail cfg s2 _ _ r2 Hquiet Hq Hl Hf), Hne, Hem.
        now rewrite app_nil_r. }
    rewrite Hbs. cbn [map concat]. rewrite He, Hrem, app_nil_r.
    split; [reflexivity|]. rewrite Hsplit. cbn. now rewrite app_nil_r.
  - intros c rest -> Hs Hc. unfold process_stream, start in *.
    rewrite loop_app, Hrun.
    destruct (finished r1) eqn:Hf1; [now exists r1|].
    cbn [forallb] in Hquiet. apply andb_true_iff in Hquiet as [Hqc _].
    destruct (stop_ends_loop cfg c _ _ Hq Hs Hqc Hc) as (r & Hfr & Hr).
    exists (emit_first (emitted r1) r). rewrite Hr. now split.
Qed.

Lemma size_trigger_then_remainder_witness :
  (forall r,
      process_stream default_config (apply_env burst_pre (init 0))
        (burst_script ++ burst_tail) = Some r ->
      finished r = true ->
      map (@length string) (batches r)
      = [BATCH_SIZE_LIMIT default_config; 5%nat] /\
      concat (batches r) = history (world burst_run)) /\
  (forall c rest,
      burst_tail = c :: rest -> stops (on_wait c) = true ->
      consistent default_config c (world burst_run) (gen burst_run) = true ->
      exists r,
        process_stream default_config (apply_env burst_pre (init 0))
          (burst_script ++ burst_tail) = Some r /\
        finished r = true).
Proof.
  apply (size_trigger_then_remainder default_config 0 burst_pre burst_script
           burst_tail burst_run 5).
  - cbn. lia.
  - vm_compute. reflexivity.
  - reflexivity.
  - reflexivity.
  - reflexivity.
  - reflexivity.
Defined.

Lemma burst_batches :
  option_map (fun r => (map (@length string) (batches r), finished r))
    (process_stream default_config (apply_env burst_pre (init 0))
       (burst_script ++ burst_tail))
  = Some ([100%nat; 5%nat], true).
Proof. vm_compute. reflexivity. Qed.

(** * Further properties of the code *)

(** ** The emit loop: one batch per turn *)

Lemma cycle_yields_once cfg c w g es w' g' b :
  cycle cfg c w g = Some (es, w', g', b) ->
  (length es <= 1)%nat /\
  (es <> [] -> batch g' = [] /\ last_flush_time g' = clock w').
Proof.
  intros H. cycle_cases H; cbn [length]; (split; [lia|]);
    intros Hes; try congruence; now split.
Qed.

Lemma loop_yields_bounded cfg script : forall w g r,
  loop cfg script w g = Some r ->
  (length (emitted r) <= S (length script))%nat.
Proof.
  induction script as [|c rest IH]; intros w g r Hrun; cbn [loop] in Hrun;
    (destruct (is_running w || negb (queue_empty w));
     [| injection Hrun as <-; unfold drain; cbn [emitted];
        destruct (nonempty (batch g)); cbn; lia]).
  - injection Hrun as <-. cbn. lia.
  - destruct (cycle cfg c w g) as [[[[es w'] g'] b]|] eqn:Hcy; [|discriminate].
    destruct (cycle_yields_once _ _ _ _ _ _ _ _ Hcy) as [Hle Hreset].
    destruct b.
    + injection Hrun as <-. cbn [emit_first emitted length].
      rewrite length_app. unfold drain; cbn [emitted].
      destruct es as [|e es'].
      * destruct (nonempty (batch g')); cbn; lia.
      * destruct (Hreset ltac:(discriminate)) as [-> _]. cbn in *. lia.
    + destruct (loop cfg rest w' g') as [r'|] eqn:Hl; [|discriminate].
      injection Hrun as <-. cbn [emit_first emitted length].
      rewrite length_app. specialize (IH _ _ _ Hl). lia.
Qed.

(** X1. A turn of the loop of [process_stream] yields at most one batch (the
    size trigger, the timeout and the re-check never add up), and a turn
    that yields leaves the buffer empty and [last_flush_time] at the clock
    read on resuming; hence a stream driven through [n] turns of the loop
    has yielded at most [n + 1] batches, the final drain included. *)
Theorem one_batch_per_turn cfg w script r :
  process_stream cfg w script = Some r ->
  (length (emitted r) <= S (length script))%nat /\
  (forall c w1 g1 es w2 g2 b,
      cycle cfg c w1 g1 = Some (es, w2, g2, b) ->
      (length es <= 1)%nat /\
      (es <> [] -> batch g2 = [] /\ last_flush_time g2 = clock w2)).
Proof.
  intros Hrun. split.
  - unfold process_stream, start in Hrun. eapply loop_yields_bounded; eauto.
  - intros. eapply cycle_yields_once; eauto.
Qed.

Lemma one_batch_per_turn_witness :
  (length (emitted window_run) <= S (length window_script))%nat /\
  (forall c w1 g1 es w2 g2 b,
      cycle default_config c w1 g1 = Some (es, w2, g2, b) ->
      (length es <= 1)%nat /\
      (es <> [] -> batch g2 = [] /\ last_flush_time g2 = clock w2)).
Proof.
  apply (one_batch_per_turn default_config (apply_env window_pre (init 0))
           window_script window_run).
  reflexivity.
Defined.

(** ** The emit loop: the clock and the timeout of the wait *)

Lemma try_block_timeout cfg c w g :
  try_block cfg c w g =
  match wait_for (wait_timeout cfg w g) c w with
  | None => None
  | Some (Got log, w1) =>
      let g1 := {| batch := batch g ++ [log];
                   last_flush_time := last_flush_time g |} in
      if (BATCH_SIZE_LIMIT cfg <=? length (batch g1))%nat
      then Some (flush BySize (on_yield c) w1 g1)
      else Some ([], w1, g1)
  | Some (Timeout, w1) =>
      if nonempty (batch g)
      then Some (flush ByTimeout (on_yield c) w1 g)
      else Some ([], w1, g)
  | Some (Fault, w1) => Some ([], w1, g)
  end.
Proof. reflexivity. Qed.

Lemma cycle_elapsed cfg c w g es w' g' b :
  cycle cfg c w g = Some (es, w', g', b) ->
  last_flush_time g <= clock w ->
  Forall (fun e => 0 <= elapsed e) es.
Proof.
  intros H Hlf. pose proof (slept_nonneg (on_wait c)).
  cycle_cases H; repeat (apply Forall_cons || apply Forall_nil);
    cbn [elapsed]; lia.
Qed.

(** X2. As long as the clock read by [time.time()] does not step back
    (in a script time only passes: [Sleep] takes a natural number),
    [last_flush_time] is a past reading of the clock and never lies ahead
    of it.  So the time reported as elapsed at a yield is never negative,
    and the timeout that the loop hands to [wait_for] is the idle timeout
    on an empty buffer and otherwise lies between 0 and [BATCH_TIME_LIMIT]:
    under a forward clock the loop never asks to wait longer than one
    window when it holds records. *)
Theorem wait_within_window cfg w script r :
  0 <= BATCH_TIME_LIMIT cfg ->
  process_stream cfg w script = Some r ->
  last_flush_time (gen r) <= clock (world r) /\
  Forall (fun e => 0 <= elapsed e) (emitted r) /\
  (batch (gen r) = [] -> wait_timeout cfg (world r) (gen r) = IDLE_TIMEOUT) /\
  (batch (gen r) <> [] ->
   0 <= wait_timeout cfg (world r) (gen r) <= BATCH_TIME_LIMIT cfg).
Proof.
  intros Hlim Hrun. unfold process_stream, start in Hrun.
  apply (loop_invariant cfg
           (fun acc w1 g1 =>
              last_flush_time g1 <= clock w1 /\
              Forall (fun e => 0 <= elapsed e) acc))
    with (acc := []) in Hrun.
  - destruct Hrun as (es & (Hlf & Hes) & Hem & _). cbn [app] in Hes.
    split; [exact Hlf|]. split.
    + rewrite Hem. apply Forall_app. split; auto. apply tail_emitted.
      unfold drain; cbn [emitted].
      destruct (nonempty (batch (gen r))); repeat constructor.
      cbn [elapsed]. lia.
    + unfold wait_timeout, time_remaining. split.
      * intros ->. reflexivity.
      * intros Hne. destruct (batch (gen r)); [congruence|]. cbn [nonempty].
        lia.
  - intros acc w1 g1 c es w2 g2 b [Hlf Hacc] Hcy.
    destruct (cycle_timing _ _ _ _ _ _ _ _ Hcy Hlf) as (_ & _ & Hlf' & _).
    split; auto. apply Forall_app. split; auto.
    eapply cycle_elapsed; eauto.
  - cbn. split; [lia|constructor].
Qed.

Lemma wait_within_window_witness :
  last_flush_time (gen buffered_run) <= clock (world buffered_run) /\
  Forall (fun e => 0 <= elapsed e) (emitted buffered_run) /\
  (batch (gen buffered_run) = [] ->
   wait_timeout default_config (world buffered_run) (gen buffered_run)
   = IDLE_TIMEOUT) /\
  (batch (gen buffered_run) <> [] ->
   0 <= wait_timeout default_config (world buffered_run) (gen buffered_run)
   <= BATCH_TIME_LIMIT default_config).
Proof.
  apply (wait_within_window default_config (init 0) buffered_script).
  - cbn. lia.
  - reflexivity.
Defined.

(** ** The emit loop: the time trigger *)

(** X3. The time trigger, as [test_time_flush] exercises it.  On an
    ingestor fresh from [__init__], let fewer than [BATCH_SIZE_LIMIT]
    records (at least one) be read within less than [BATCH_TIME_LIMIT] of
    the start and let the next wait time out with nothing pushed.  Then the
    stream has yielded exactly one batch: all the records in arrival order,
    by the timeout, no earlier than [BATCH_TIME_LIMIT] after the start of
    the window; and unless stop was requested meanwhile it goes on running
    with an empty buffer. *)
Theorem time_trigger cfg t pre s1 r1 c :
  process_stream cfg (apply_env pre (init t)) s1 = Some r1 ->
  finished r1 = false ->
  queue (world r1) = [] ->
  history (world r1) <> [] ->
  (length (history (world r1)) < BATCH_SIZE_LIMIT cfg)%nat ->
  clock (world r1) - clock (apply_env pre (init t)) < BATCH_TIME_LIMIT cfg ->
  outcome c = TimedOut -> quiet c = true ->
  consistent cfg c (world r1) (gen r1) = true ->
  exists r e,
    process_stream cfg (apply_env pre (init t)) (s1 ++ [c]) = Some r /\
    emitted r = [e] /\
    trigger e = ByTimeout /\
    records e = history (world r1) /\
    BATCH_TIME_LIMIT cfg <= elapsed e /\
    (unstopped c = true -> finished r = false /\ batch (gen r) = []).
Proof.
  intros Hrun Hf Hq Hne Hlen Hwin Ho Hquiet Hcons.
  assert (Hpos : (0 < BATCH_SIZE_LIMIT cfg)%nat) by lia.
  destruct (one_window _ _ _ _ Hpos Hrun Hwin) as (es & Hem & Hfull & _).
  pose proof (run_conserves cfg _ s1 r1 [] (apply_env_init pre t) Hrun) as Hh.
  cbn [app] in Hh. unfold pending, batches in Hh.
  rewrite Hq, Hf, app_nil_r in Hh. rewrite Hf, app_nil_r in Hem.
  (* nothing has been yielded yet: a full batch would not fit *)
  assert (es = []) as ->.
  { destruct es as [|e es']; [reflexivity|]. exfalso.
    pose proof (Forall_inv Hfull) as He. cbn beta in He.
    apply (f_equal (@length string)) in Hh.
    rewrite Hem in Hh. cbn [map concat] in Hh.
    rewrite !length_app in Hh. lia. }
  rewrite Hem in Hh. cbn [map concat app] in Hh.
  unfold consistent in Hcons.
  destruct (cycle cfg c (world r1) (gen r1)) as [[[[ces w'] g'] b]|] eqn:Hcy;
    [|discriminate].
  assert (Hshape :
            exists e, ces = [e] /\ trigger e = ByTimeout /\
                      records e = batch (gen r1) /\
                      BATCH_TIME_LIMIT cfg <= elapsed e /\ batch g' = []).
  { pose proof Hcy as H. rewrite Hh in Hne.
    cycle_cases H; try congruence; bool_facts; try congruence.
    eexists. repeat split; cbn [elapsed]. lia. }
  destruct Hshape as (e & -> & Htr & Hrec & Hel & Hb').
  pose proof (suspended_in_loop _ _ _ _ _ Hrun Hf) as Hgo.
  unfold process_stream, start in *. rewrite loop_app, Hrun, Hf.
  cbn [loop]. rewrite Hgo, Hcy. rewrite Hem. cbn [option_map].
  assert (Hr1 : is_running (world r1) = true).
  { destruct (is_running (world r1)); [reflexivity|].
    cbn [orb] in Hgo. unfold queue_empty in Hgo. rewrite Hq in Hgo.
    discriminate. }
  assert (Hb : unstopped c = true -> b = false).
  { intros Hu. now destruct (cycle_keeps_running _ _ _ _ _ _ _ _ Hcy Hu Hr1). }
  rewrite <- Hh in Hrec.
  destruct b.
  - exists (emit_first [] (emit_first [e] (drain w' g'))), e.
    cbn [option_map emit_first emitted drain app]. rewrite Hb'.
    cbn [nonempty app].
    split; [reflexivity|]. split; [reflexivity|].
    split; [exact Htr|]. split; [exact Hrec|]. split; [exact Hel|].
    intros Hu. specialize (Hb Hu). discriminate.
  - pose proof (cycle_quiet _ _ _ _ _ _ _ _ Hcy Hquiet Hq) as [Hq' _].
    destruct (is_running w' || negb (queue_empty w')) eqn:Hc'.
    + eexists _, e. cbn [option_map emit_first emitted app].
      split; [reflexivity|]. split; [reflexivity|].
      split; [exact Htr|]. split; [exact Hrec|]. split; [exact Hel|].
      intros _. cbn. now split.
    + exfalso. apply loop_left in Hc' as [Hr' _].
      unfold cycle in Hcy.
      destruct (try_block cfg c _ _) as [[[? ?] ?]|]; [|discriminate].
      destruct (recheck cfg c _ _) as [[? ?] ?]. injection Hcy as _ <- _ Hbb.
      unfold queue_empty in Hbb. rewrite Hr', Hq' in Hbb. discriminate.
Qed.

Lemma time_trigger_witness :
  exists r e,
    process_stream default_config (apply_env [] (init 0))
      (buffered_script ++ [times_out [Sleep 5000]]) = Some r /\
    emitted r = [e] /\
    trigger e = ByTimeout /\
    records e = history (world buffered_run) /\
    BATCH_TIME_LIMIT default_config <= elapsed e /\
    (unstopped (times_out [Sleep 5000]) = true ->
     finished r = false /\ batch (gen r) = []).
Proof.
  apply (time_trigger default_config 0 [] buffered_script buffered_run
           (times_out [Sleep 5000])); try reflexivity.
  - discriminate.
  - cbn. lia.
Defined.

(** ** The consumer loop of [run_monitoring] *)

Lemma last_n_length {A : Type} n (l : list A) :
  length (App.last_n n l) = Nat.min n (length l).
Proof. unfold App.last_n. rewrite length_skipn. lia. Qed.

Lemma last_n_all {A : Type} n (l : list A) :
  (length l <= n)%nat -> App.last_n n l = l.
Proof.
  intros H. unfold App.last_n.
  replace (length l - n)%nat with 0%nat by lia. reflexivity.
Qed.

(** The last [n] items of a list that ends with at most [n] items [b]. *)
Lemma last_n_app {A : Type} n (a b : list A) :
  (length b <= n)%nat ->
  App.last_n n (a ++ b) = App.last_n (n - length b) a ++ b.
Proof.
  intros H. unfold App.last_n. rewrite length_app, skipn_app.
  replace (length a + length b - n)%nat
    with (length a - (n - length b))%nat by lia.
  replace (length a - (n - length b) - length a)%nat with 0%nat by lia.
  reflexivity.
Qed.

Lemma last_n_last_n {A : Type} n m (l : list A) :
  (m <= n)%nat -> App.last_n m (App.last_n n l) = App.last_n m l.
Proof.
  intros H. unfold App.last_n. rewrite length_skipn, skipn_skipn.
  f_equal. lia.
Qed.

Lemma last_n_app_long {A : Type} n (a b : list A) :
  (n <= length b)%nat -> App.last_n n (a ++ b) = App.last_n n b.
Proof.
  intros H. unfold App.last_n. rewrite length_app, skipn_app.
  replace (skipn (length a + length b - n) a) with (@nil A).
  - cbn. f_equal. lia.
  - symmetry. apply skipn_all2. lia.
Qed.

(** Keeping the last [n] at every step keeps the last [n] of the whole. *)
Lemma last_n_absorb {A : Type} n (a b : list A) :
  App.last_n n (App.last_n n a ++ b) = App.last_n n (a ++ b).
Proof.
  destruct (Nat.le_gt_cases (length b) n) as [Hb|Hb].
  - rewrite !last_n_app by assumption. f_equal.
    apply last_n_last_n. lia.
  - rewrite !last_n_app_long by lia. reflexivity.
Qed.

Lemma on_batch_buffer m b :
  App.raw_logs_buffer (App.on_batch m b)
  = App.last_n 50 (App.raw_logs_buffer m ++ App.last_n 20 b).
Proof.
  unfold App.on_batch. cbn [App.raw_logs_buffer].
  destruct (50 <? _)%nat eqn:E; [reflexivity|].
  apply Nat.ltb_ge in E. symmetry. now apply last_n_all.
Qed.

Lemma run_monitoring_from bs :
  forall m seen,
    App.raw_logs_buffer m = App.last_n 50 seen ->
    App.raw_logs_buffer (fold_left App.on_batch bs m)
    = App.last_n 50 (seen ++ concat (map (App.last_n 20) bs)) /\
    App.total_logs_processed (fold_left App.on_batch bs m)
    = (App.total_logs_processed m + length (concat bs))%nat.
Proof.
  induction bs as [|b bs IH]; intros m seen Hm.
  - cbn. rewrite app_nil_r. split; [exact Hm|lia].
  - cbn [fold_left map concat].
    destruct (IH (App.on_batch m b) (seen ++ App.last_n 20 b)) as [Hb Ht].
    + rewrite on_batch_buffer, Hm. apply last_n_absorb.
    + rewrite Hb, Ht. rewrite <- app_assoc. split; [reflexivity|].
      cbn [App.on_batch App.total_logs_processed]. rewrite length_app. lia.
Qed.

(** X4. The log display of [run_monitoring] never holds more than 50
    lines: after any sequence of batches it is exactly the last 50 of the
    lines shown so far, where each batch contributes its last 20 records
    in order. *)
Theorem display_is_last_50 bs :
  App.raw_logs_buffer (App.run_monitoring bs)
  = App.last_n 50 (concat (map (App.last_n 20) bs)) /\
  (length (App.raw_logs_buffer (App.run_monitoring bs)) <= 50)%nat.
Proof.
  unfold App.run_monitoring.
  destruct (run_monitoring_from bs App.fresh [] eq_refl) as [Hb _].
  cbn [app] in Hb. rewrite Hb. split; [reflexivity|].
  rewrite last_n_length. lia.
Qed.

(** X5. The newest records are always on display: whatever was shown
    before and whatever the size of the batch, after a batch the display
    ends with the last 20 records of that batch (all of them when it has
    fewer), in order. *)
Theorem display_ends_with_newest m b :
  exists older,
    App.raw_logs_buffer (App.on_batch m b) = older ++ App.last_n 20 b.
Proof.
  rewrite on_batch_buffer.
  rewrite last_n_app by (rewrite last_n_length; lia).
  eexists. reflexivity.
Qed.

(** X6. The counter of [run_monitoring] counts records: after the batches
    of a stream it is the number of records yielded, and once a stream on
    an ingestor fresh from [__init__] has finished it is the number of
    records that [add_log] was given: every log is counted once. *)
Theorem every_log_counted cfg t pre script r :
  process_stream cfg (apply_env pre (init t)) script = Some r ->
  App.total_logs_processed (App.run_monitoring (batches r))
  = length (concat (batches r)) /\
  (finished r = true ->
   App.total_logs_processed (App.run_monitoring (batches r))
   = length (history (world r))).
Proof.
  intros Hrun. unfold App.run_monitoring.
  destruct (run_monitoring_from (batches r) App.fresh [] eq_refl) as [_ Ht].
  cbn in Ht. split; [exact Ht|]. intros Hf. rewrite Ht.
  pose proof (run_conserves cfg _ script r [] (apply_env_init pre t) Hrun)
    as Hh. cbn [app] in Hh.
  unfold process_stream, start in Hrun.
  apply (loop_invariant cfg (fun _ _ _ => True)) with (acc := []) in Hrun;
    auto.
  destruct Hrun as (_ & _ & _ & Hfin). destruct (Hfin Hf) as [_ Hq].
  rewrite Hh, Hq. unfold pending. rewrite Hf. now rewrite !app_nil_r.
Qed.

Lemma every_log_counted_witness :
  App.total_logs_processed (App.run_monitoring (batches window_run))
  = length (concat (batches window_run)) /\
  (finished window_run = true ->
   App.total_logs_processed (App.run_monitoring (batches window_run))
   = length (history (world window_run))).
Proof.
  apply (every_log_counted default_config 0 window_pre window_script
           window_run).
  reflexivity.
Defined.

(** ** The markdown fences around a response *)

Local Arguments Ascii.eqb : simpl never.

Lemma startswith_app p : forall s, Agent.startswith p (p ++ s) = true.
Proof.
  induction p as [|a p IH]; intros s; cbn; [reflexivity|].
  now rewrite Ascii.eqb_refl, IH.
Qed.

Lemma startswith_split p q : forall t,
  Agent.startswith (p ++ q) t
  = Agent.startswith p t && Agent.startswith q (skipn (length p) t).
Proof.
  induction p as [|a p IH]; intros t; cbn [app length skipn Agent.startswith].
  - reflexivity.
  - destruct t as [|b t]; [reflexivity|].
    rewrite IH. now rewrite andb_assoc.
Qed.

(** A prefix test on a text at least as long as the prefix only looks at
    that part of the text. *)
Lemma startswith_longer p : forall t s,
  (length p <= length t)%nat ->
  Agent.startswith p (t ++ s) = Agent.startswith p t.
Proof.
  induction p as [|a p IH]; intros t s Hlen; [reflexivity|].
  destruct t as [|b t]; cbn in Hlen; [lia|].
  cbn. rewrite IH by lia. reflexivity.
Qed.

Lemma endswith_app p s : Agent.endswith p (s ++ p) = true.
Proof. unfold Agent.endswith. rewrite rev_app_distr. apply startswith_app. Qed.

Lemma firstn_strip {A : Type} (s p : list A) :
  firstn (length (s ++ p) - length p) (s ++ p) = s.
Proof.
  rewrite length_app. replace (length s + length p - length p)%nat
    with (length s) by lia.
  rewrite firstn_app, firstn_all, Nat.sub_diag. cbn. apply app_nil_r.
Qed.

(** X7. A response wrapped in a [```json] fence is unwrapped: whatever
    the body, provided it does not itself start with three backticks, the
    clean-up of [analyze_batch] returns exactly the body (also when the body
    is empty or is one or two backticks). *)
Theorem unfence_json body :
  Agent.startswith Agent.fence body = false ->
  Agent.strip_fences (Agent.fence_json ++ body ++ Agent.fence) = body.
Proof.
  intros Hb. unfold Agent.strip_fences.
  rewrite startswith_app.
  change (skipn 7 (Agent.fence_json ++ body ++ Agent.fence))
    with (body ++ Agent.fence).
  destruct (Nat.le_gt_cases 3 (length body)) as [Hlen|Hlen].
  - assert (Hs : Agent.startswith Agent.fence (body ++ Agent.fence) = false).
    { rewrite startswith_longer; auto. }
    rewrite Hs, endswith_app. exact (firstn_strip body Agent.fence).
  - destruct body as [|a [|b [|c rest]]]; cbn in Hlen; try lia; clear Hb Hlen.
    + reflexivity.
    + destruct (Ascii.eqb_spec "`" a) as [<-|Ha]; [reflexivity|].
      apply Ascii.eqb_neq in Ha. unfold Agent.endswith. cbn.
      rewrite Ha. cbn. rewrite !Ascii.eqb_refl. reflexivity.
    + destruct (Ascii.eqb_spec "`" a) as [<-|Ha];
        [destruct (Ascii.eqb_spec "`" b) as [<-|Hb]; [reflexivity|]|].
      * apply Ascii.eqb_neq in Hb. unfold Agent.endswith. cbn.
        rewrite Hb, !Ascii.eqb_refl. cbn. rewrite !Ascii.eqb_refl.
        reflexivity.
      * apply Ascii.eqb_neq in Ha. unfold Agent.endswith. cbn.
        rewrite Ha. cbn. rewrite !Ascii.eqb_refl. reflexivity.
Qed.

(** X8. A response wrapped in a plain fence of three backticks is
    unwrapped too: the clean-up returns exactly the body, provided the body
    does not start with the four letters [json] (which would be read as the
    language tag of the fence). *)
Theorem unfence_plain body :
  Agent.startswith (list_ascii_of_string "json") body = false ->
  Agent.strip_fences (Agent.fence ++ body ++ Agent.fence) = body.
Proof.
  intros Hb. unfold Agent.strip_fences.
  assert (Hj : Agent.startswith Agent.fence_json
                 (Agent.fence ++ body ++ Agent.fence) = false).
  { change Agent.fence_json
      with (Agent.fence ++ list_ascii_of_string "json").
    rewrite startswith_split, startswith_app.
    change (skipn (length Agent.fence) (Agent.fence ++ body ++ Agent.fence))
      with (body ++ Agent.fence).
    destruct (Nat.le_gt_cases 4 (length body)) as [Hlen|Hlen].
    - rewrite startswith_longer; auto.
    - destruct body as [|a [|b [|c [|d rest]]]]; cbn in Hlen; try lia;
        cbn; rewrite ?andb_false_r; reflexivity. }
  rewrite Hj, startswith_app.
  change (skipn 3 (Agent.fence ++ body ++ Agent.fence))
    with (body ++ Agent.fence).
  rewrite endswith_app. exact (firstn_strip body Agent.fence).
Qed.

Lemma unfence_plain_witness :
  Agent.strip_fences
    (Agent.fence ++ list_ascii_of_string "{}" ++ Agent.fence)
  = list_ascii_of_string "{}".
Proof.
  apply (unfence_plain (list_ascii_of_string "{}")). reflexivity.
Defined.

Lemma unfence_json_witness :
  Agent.strip_fences
    (Agent.fence_json ++ list_ascii_of_string "{}" ++ Agent.fence)
  = list_ascii_of_string "{}".
Proof.
  apply (unfence_json (list_ascii_of_string "{}")). reflexivity.
Defined.

(** X9. A response without fences is left as it is: when the text neither
    starts nor ends with three backticks, the clean-up changes nothing. *)
Theorem unfenced_unchanged text :
  Agent.startswith Agent.fence text = false ->
  Agent.endswith Agent.fence text = false ->
  Agent.strip_fences text = text.
Proof.
  intros Hs He. unfold Agent.strip_fences.
  assert (Hj : Agent.startswith Agent.fence_json text = false).
  { change Agent.fence_json
      with (Agent.fence ++ list_ascii_of_string "json").
    now rewrite startswith_split, Hs. }
  now rewrite Hj, Hs, He.
Qed.

Lemma unfenced_unchanged_witness :
  Agent.strip_fences (list_ascii_of_string "{}") = list_ascii_of_string "{}".
Proof.
  apply (unfenced_unchanged (list_ascii_of_string "{}")); reflexivity.
Defined.

(** ** The analyzer *)

(** The clean-up takes a [json] fence off, and leaves alone a text without
    fences. *)
Lemma strip_fences_wrapped body :
  Agent.startswith Agent.fence body = false ->
  Agent.endswith Agent.fence body = false ->
  Agent.strip_fences (Agent.fence_json ++ body ++ Agent.fence)
  = Agent.strip_fences body.
Proof.
  intros Hs He.
  assert (Hbare : Agent.strip_fences body = body).
  { unfold Agent.strip_fences.
    assert (Hj : Agent.startswith Agent.fence_json body = false).
    { change Agent.fence_json
        with (Agent.fence ++ list_ascii_of_string "json").
      now rewrite startswith_split, Hs. }
    now rewrite Hj, Hs, He. }
  rewrite Hbare. unfold Agent.strip_fences. rewrite startswith_app.
  change (skipn 7 (Agent.fence_json ++ body ++ Agent.fence))
    with (body ++ Agent.fence).
  destruct (Nat.le_gt_cases 3 (length body)) as [Hlen|Hlen].
  - rewrite startswith_longer, Hs, endswith_app by assumption.
    exact (firstn_strip body Agent.fence).
  - destruct body as [|a [|b [|c rest]]]; cbn in Hlen; try lia.
    + reflexivity.
    + destruct (Ascii.eqb_spec "`" a) as [<-|Ha]; [reflexivity|].
      apply Ascii.eqb_neq in Ha. unfold Agent.endswith. cbn.
      rewrite Ha. cbn. rewrite !Ascii.eqb_refl. reflexivity.
    + destruct (Ascii.eqb_spec "`" a) as [<-|Ha];
        [destruct (Ascii.eqb_spec "`" b) as [<-|Hb]; [reflexivity|]|].
      * apply Ascii.eqb_neq in Hb. unfold Agent.endswith. cbn.
        rewrite Hb, !Ascii.eqb_refl. cbn. rewrite !Ascii.eqb_refl.
        reflexivity.
      * apply Ascii.eqb_neq in Ha. unfold Agent.endswith. cbn.
        rewrite Ha. cbn. rewrite !Ascii.eqb_refl. reflexivity.
Qed.

(** X10. Markdown fences around the answer of the model do not change the
    report.  When the answers of a model carry no fence of their own,
    [analyze_batch] returns for the same answers wrapped in a [json] fence
    the report it returns for the bare answers, on every batch; and a
    wrapped answer whose body parses and passes validation gives exactly
    the validated report, built from the first element when a non-empty
    list was parsed. *)
Theorem fenced_answer_same_report head tail loads validate generate logs :
  (forall prompt body,
      generate prompt = inr body ->
      Agent.startswith Agent.fence body = false /\
      Agent.endswith Agent.fence body = false) ->
  Agent.analyze_batch head tail loads validate
    (Some (fenced_answers generate)) logs
  = Agent.analyze_batch head tail loads validate (Some generate) logs /\
  (forall body data report,
      logs <> [] ->
      generate (Agent._create_prompt head tail logs) = inr body ->
      loads body = inr data -> data <> Agent.JArray [] ->
      validate (report_source data) = inr report ->
      Agent.analyze_batch head tail loads validate
        (Some (fenced_answers generate)) logs = report).
Proof.
  intros Hbare.
  assert (Hsame : Agent.analyze_batch head tail loads validate
                    (Some (fenced_answers generate)) logs
                  = Agent.analyze_batch head tail loads validate
                      (Some generate) logs).
  { destruct logs as [|l logs]; [reflexivity|].
    cbn [Agent.analyze_batch]. unfold fenced_answers.
    destruct (generate _) as [e|body] eqn:Hg; [reflexivity|].
    destruct (Hbare _ _ Hg) as [Hs He].
    now rewrite strip_fences_wrapped. }
  split; [exact Hsame|].
  intros body data report Hne Hg Hl Hd Hv. rewrite Hsame.
  destruct logs as [|l logs]; [congruence|].
  cbn [Agent.analyze_batch]. rewrite Hg.
  destruct (Hbare _ _ Hg) as [Hs He].
  assert (Hstrip : Agent.strip_fences body = body).
  { unfold Agent.strip_fences.
    assert (Hj : Agent.startswith Agent.fence_json body = false).
    { change Agent.fence_json
        with (Agent.fence ++ list_ascii_of_string "json").
      now rewrite startswith_split, Hs. }
    now rewrite Hj, Hs, He. }
  rewrite Hstrip, Hl.
  assert (Hbuild : Agent.build_report validate (report_source data) = report).
  { unfold Agent.build_report. now rewrite Hv. }
  destruct data as [| | | |[|first items]|]; try exact Hbuild.
  congruence.
Qed.

Lemma fenced_answer_same_report_witness :
  Agent.analyze_batch EmptyString EmptyString demo_loads demo_validate
    (Some (fenced_answers demo_generate)) ["a"]
  = Agent.analyze_batch EmptyString EmptyString demo_loads demo_validate
      (Some demo_generate) ["a"] /\
  (forall body data report,
      ["a"] <> [] ->
      demo_generate (Agent._create_prompt EmptyString EmptyString ["a"])
      = inr body ->
      demo_loads body = inr data -> data <> Agent.JArray [] ->
      demo_validate (report_source data) = inr report ->
      Agent.analyze_batch EmptyString EmptyString demo_loads demo_validate
        (Some (fenced_answers demo_generate)) ["a"] = report).
Proof.
  apply (fenced_answer_same_report EmptyString EmptyString demo_loads
           demo_validate demo_generate ["a"]).
  intros prompt body Hb. injection Hb as <-. split; reflexivity.
Defined.

Lemma run_batches_nonempty cfg w script r :
  process_stream cfg w script = Some r ->
  Forall (fun b => b <> []) (batches r).
Proof.
  intros Hrun. unfold process_stream, start in Hrun.
  apply (loop_invariant cfg
           (fun acc _ _ => Forall (fun e => records e <> []) acc))
    with (acc := []) in Hrun.
  - destruct Hrun as (es & Hes & Hem & _). cbn [app] in Hes.
    unfold batches. rewrite Hem. apply Forall_map, Forall_app.
    split; auto. apply tail_emitted.
    eapply Forall_impl; [|apply drain_emitted]. now intros e (_ & _ & ?).
  - intros acc w0 g0 c es w' g' b Hacc Hcy. apply Forall_app. split; auto.
    eapply Forall_impl; [|eapply cycle_emits_nonempty; eauto].
    now intros e [? _].
  - constructor.
Qed.

(** X11. Without a model every batch of a stream is reported as "Missing
    API Key".  When the package is not installed, or the key is unset or
    empty, [Analyzer.__init__] configures no model, and since
    [process_stream] never yields an empty batch, [run_monitoring] gets for
    each batch the fallback report with that reason, never the one for an
    empty batch, and the model is not called. *)
Theorem missing_key_report cfg w script r head tail loads validate
        installed api_key generative_model b :
  process_stream cfg w script = Some r ->
  In b (batches r) ->
  installed = false \/ api_key = None \/ api_key = Some EmptyString ->
  Agent.analyze_batch head tail loads validate
    (Agent.init installed api_key generative_model) b
  = Agent._create_fallback_report "Missing API Key".
Proof.
  intros Hrun Hb Hkey.
  pose proof (run_batches_nonempty _ _ _ _ Hrun) as Hne.
  rewrite Forall_forall in Hne. specialize (Hne b Hb).
  assert (Agent.init installed api_key generative_model = None) as ->.
  { unfold Agent.init. destruct Hkey as [->|[->| ->]]; [reflexivity| |];
      now destruct installed. }
  destruct b; [congruence|reflexivity].
Qed.

Lemma missing_key_report_witness :
  Agent.analyze_batch EmptyString EmptyString
    (fun _ => inl "no parser") (fun _ => inl "no schema")
    (Agent.init true (Some EmptyString) (fun _ => inl "unreachable"))
    ["a"; "b"]
  = Agent._create_fallback_report "Missing API Key".
Proof.
  apply (missing_key_report default_config (apply_env window_pre (init 0))
           window_script window_run EmptyString EmptyString
           (fun _ => inl "no parser") (fun _ => inl "no schema")
           true (Some EmptyString) (fun _ => inl "unreachable") ["a"; "b"]).
  - reflexivity.
  - left. reflexivity.
  - right. right. reflexivity.
Defined.

(** ** The log generator *)

Lemma choice_in l k : l <> [] -> In (Chaos.choice l k) l.
Proof.
  intros Hl. unfold Chaos.choice. apply nth_In.
  apply Nat.mod_upper_bound. destruct l; [congruence|discriminate].
Qed.

Lemma single_log_fields g r :
  In (Chaos.service (Chaos._generate_single_log g r)) Chaos.SERVICES /\
  In (Chaos.level (Chaos._generate_single_log g r)) Chaos.LEVELS /\
  Chaos.timestamp (Chaos._generate_single_log g r) = Chaos.now r.
Proof.
  unfold Chaos._generate_single_log.
  destruct (Chaos._meltdown_mode g && Chaos.spike r);
    cbn [Chaos.service Chaos.level Chaos.timestamp].
  - repeat split; cbn; auto 10.
  - repeat split; apply choice_in; discriminate.
Qed.

Lemma noise_is_not_signature s l k :
  Chaos._get_random_message s l k <> Chaos.SIGNATURE.
Proof.
  unfold Chaos._get_random_message, Chaos.choice. cbn [length].
  pose proof (Nat.mod_upper_bound k 6 ltac:(discriminate)) as Hk.
  destruct (k mod 6)%nat as [|[|[|[|[|[|n]]]]]]; cbn; try discriminate.
  lia.
Qed.

(** X12. Every log that the generator creates is well formed, in either
    mode: its service is one of [SERVICES], its level one of [LEVELS], and
    its timestamp the time read for it; and so is every string that
    [generate_log_stream] yields the dump of such a log, whatever the rolls
    and whatever the other tasks do. *)
Theorem generated_log_well_formed dumps g turns :
  (forall r,
      In (Chaos.service (Chaos._generate_single_log g r)) Chaos.SERVICES /\
      In (Chaos.level (Chaos._generate_single_log g r)) Chaos.LEVELS /\
      Chaos.timestamp (Chaos._generate_single_log g r) = Chaos.now r) /\
  Forall (fun s => exists log,
              s = dumps log /\
              In (Chaos.service log) Chaos.SERVICES /\
              In (Chaos.level log) Chaos.LEVELS)
    (fst (fst (Chaos.generate_log_stream dumps g turns))).
Proof.
  split; [intros r; apply single_log_fields|].
  unfold Chaos.generate_log_stream.
  generalize {| Chaos.is_running := true;
                Chaos._meltdown_mode := Chaos._meltdown_mode g |}.
  clear g. induction turns as [|t turns IH]; intros g; cbn [Chaos.loop].
  - destruct (Chaos.is_running g); constructor.
  - destruct (Chaos.is_running g); [|constructor].
    specialize (IH (fold_left (fun g a => Chaos.act a g)
                      (Chaos.interlude t) g)).
    destruct (Chaos.loop dumps turns _) as [[more fin] g'']. cbn [fst] in *.
    apply Forall_app. split; [|exact IH].
    unfold Chaos._create_batch. rewrite map_map. apply Forall_map.
    apply Forall_forall. intros i _. eexists. split; [reflexivity|].
    destruct (single_log_fields g (Chaos.rolls t i)) as (? & ? & _). auto.
Qed.

(** X13. The signature of the meltdown is never noise: a generated log
    carries the message "Database Connection Refused: Pool exhausted"
    exactly when the generator is in meltdown mode and the draw fell under
    0.7; it then comes from [inventory-db] at level [ERROR].  In normal
    mode the message never appears. *)
Theorem signature_iff_meltdown g r :
  (Chaos.message (Chaos._generate_single_log g r) = Chaos.SIGNATURE <->
   Chaos._meltdown_mode g && Chaos.spike r = true) /\
  (Chaos.message (Chaos._generate_single_log g r) = Chaos.SIGNATURE ->
   Chaos.service (Chaos._generate_single_log g r) = "inventory-db" /\
   Chaos.level (Chaos._generate_single_log g r) = "ERROR").
Proof.
  unfold Chaos._generate_single_log.
  destruct (Chaos._meltdown_mode g && Chaos.spike r);
    cbn [Chaos.message Chaos.service Chaos.level].
  - repeat split; auto.
  - split; [split; [intros H; now apply noise_is_not_signature in H
                   |discriminate]|].
    intros H. now apply noise_is_not_signature in H.
Qed.

Lemma create_batch_length g count rolls :
  length (Chaos._create_batch g count rolls) = count.
Proof. unfold Chaos._create_batch. now rewrite length_map, length_seq. Qed.

Lemma chaos_stays_stopped acts : forall g,
  Chaos.is_running g = false ->
  Chaos.is_running (fold_left (fun g a => Chaos.act a g) acts g) = false.
Proof.
  induction acts as [|a acts IH]; intros g Hg; [exact Hg|].
  cbn [fold_left]. apply IH. now destruct a.
Qed.

Lemma chaos_stop_requested acts : forall g,
  In Chaos.RequestStop acts ->
  Chaos.is_running (fold_left (fun g a => Chaos.act a g) acts g) = false.
Proof.
  induction acts as [|a acts IH]; intros g Hin; [destruct Hin|].
  cbn [fold_left]. destruct Hin as [->|Hin].
  - now apply chaos_stays_stopped.
  - now apply IH.
Qed.

(** X14. The rate of the generator.  As long as nobody toggles the mode or
    requests stop, every turn of the loop of [generate_log_stream] yields
    one log in normal mode and 50 in meltdown mode, so [n] turns yield [n]
    and [50 n] logs, and the generator keeps running, also when stop had
    been requested before the stream started. *)
Theorem steady_rate dumps g turns :
  Forall (fun t => Chaos.interlude t = []) turns ->
  exists logs g',
    Chaos.generate_log_stream dumps g turns = (logs, false, g') /\
    length logs = (Chaos.batch_size g * length turns)%nat /\
    Chaos.is_running g' = true /\
    Chaos._meltdown_mode g' = Chaos._meltdown_mode g.
Proof.
  intros Hq. unfold Chaos.generate_log_stream.
  set (g1 := {| Chaos.is_running := true;
                Chaos._meltdown_mode := Chaos._meltdown_mode g |}).
  assert (Hsize : Chaos.batch_size g = Chaos.batch_size g1) by reflexivity.
  assert (Hmode : Chaos._meltdown_mode g = Chaos._meltdown_mode g1)
    by reflexivity.
  rewrite Hsize, Hmode.
  assert (Hrun : Chaos.is_running g1 = true) by reflexivity.
  clearbody g1. clear Hsize Hmode g.
  induction Hq as [|t turns Ht _ IH].
  - exists [], g1. cbn [Chaos.loop]. rewrite Hrun. cbn.
    repeat split; auto; lia.
  - destruct IH as (logs & g' & Hl & Hlen & Hr & Hm).
    cbn [Chaos.loop]. rewrite Hrun, Ht. cbn [fold_left]. rewrite Hl.
    eexists _, g'. split; [reflexivity|].
    rewrite length_app, length_map, create_batch_length, Hlen.
    cbn [length]. repeat split; auto; lia.
Qed.

Lemma steady_rate_witness :
  exists logs g',
    Chaos.generate_log_stream Chaos.message
      (Chaos.toggle_meltdown true Chaos.init)
      (repeat {| Chaos.rolls := fun _ => Chaos.mkRoll true 0 0 0 "t";
                 Chaos.interlude := [] |} 3)
    = (logs, false, g') /\
    length logs
    = (Chaos.batch_size (Chaos.toggle_meltdown true Chaos.init)
       * length (repeat {| Chaos.rolls :=
                             fun _ => Chaos.mkRoll true 0 0 0 "t";
                           Chaos.interlude := [] |} 3))%nat /\
    Chaos.is_running g' = true /\
    Chaos._meltdown_mode g'
    = Chaos._meltdown_mode (Chaos.toggle_meltdown true Chaos.init).
Proof.
  apply (steady_rate Chaos.message (Chaos.toggle_meltdown true Chaos.init)).
  repeat constructor.
Defined.

(** X15. Stop is seen only between batches.  When stop is requested while
    the generator is suspended in a turn of its loop, be it at the first of
    its yields, the batch of that turn is still yielded in full (50 logs in
    meltdown mode), then the generator returns and yields nothing more,
    whatever would have followed. *)
Theorem stop_after_batch dumps g t rest :
  In Chaos.RequestStop (Chaos.interlude t) ->
  exists g',
    Chaos.generate_log_stream dumps g (t :: rest)
    = (map dumps (Chaos._create_batch g (Chaos.batch_size g) (Chaos.rolls t)),
       true, g') /\
    Chaos.is_running g' = false.
Proof.
  intros Hstop. unfold Chaos.generate_log_stream. cbn [Chaos.loop].
  cbn [Chaos.is_running].
  set (g1 := {| Chaos.is_running := true;
                Chaos._meltdown_mode := Chaos._meltdown_mode g |}).
  pose proof (chaos_stop_requested _ g1 Hstop) as Hr.
  set (g2 := fold_left (fun g a => Chaos.act a g) (Chaos.interlude t) g1)
    in *.
  exists g2. split; [|exact Hr].
  destruct rest; cbn [Chaos.loop]; rewrite Hr; now rewrite app_nil_r.
Qed.

Lemma stop_after_batch_witness :
  exists g',
    Chaos.generate_log_stream Chaos.message Chaos.init
      ({| Chaos.rolls := fun _ => Chaos.mkRoll false 0 0 1 "t";
          Chaos.interlude := [Chaos.RequestStop] |} :: [])
    = (map Chaos.message
         (Chaos._create_batch Chaos.init (Chaos.batch_size Chaos.init)
            (fun _ => Chaos.mkRoll false 0 0 1 "t")),
       true, g') /\
    Chaos.is_running g' = false.
Proof.
  apply (stop_after_batch Chaos.message Chaos.init
           {| Chaos.rolls := fun _ => Chaos.mkRoll false 0 0 1 "t";
              Chaos.interlude := [Chaos.RequestStop] |} []).
  left. reflexivity.
Defined.

Lemma calm_stays_normal acts : forall g,
  forallb (fun a => match a with
                    | Chaos.SetMeltdown true => false
                    | _ => true
                    end) acts = true ->
  Chaos._meltdown_mode g = false ->
  Chaos._meltdown_mode (fold_left (fun g a => Chaos.act a g) acts g) = false.
Proof.
  induction acts as [|a acts IH]; intros g Hc Hg; [exact Hg|].
  cbn [forallb] in Hc. apply andb_true_iff in Hc as [Ha Hc].
  cbn [fold_left]. apply IH; auto.
  destruct a as [[|]|]; cbn; auto; discriminate.
Qed.

(** X16. No false alarm in normal mode.  When the generator is started in
    normal mode and nobody switches it to meltdown mode, no string that
    [generate_log_stream] yields is the dump of a log with the signature
    message, whatever the rolls and however long the stream. *)
Theorem normal_stream_has_no_signature dumps g turns :
  Chaos._meltdown_mode g = false ->
  forallb calm turns = true ->
  Forall (fun s => exists log,
              s = dumps log /\ Chaos.message log <> Chaos.SIGNATURE)
    (fst (fst (Chaos.generate_log_stream dumps g turns))).
Proof.
  intros Hg Hcalm. unfold Chaos.generate_log_stream.
  assert (Hm : Chaos._meltdown_mode
                 {| Chaos.is_running := true;
                    Chaos._meltdown_mode := Chaos._meltdown_mode g |}
               = false) by exact Hg.
  revert Hm.
  generalize {| Chaos.is_running := true;
                Chaos._meltdown_mode := Chaos._meltdown_mode g |}.
  clear g Hg. induction turns as [|t turns IH]; intros g Hg;
    cbn [Chaos.loop].
  - destruct (Chaos.is_running g); constructor.
  - destruct (Chaos.is_running g); [|constructor].
    cbn [forallb] in Hcalm. apply andb_true_iff in Hcalm as [Ht Hcalm].
    specialize (IH Hcalm _ (calm_stays_normal _ g Ht Hg)).
    destruct (Chaos.loop dumps turns _) as [[more fin] g'']. cbn [fst] in *.
    apply Forall_app. split; [|exact IH].
    unfold Chaos._create_batch. rewrite map_map. apply Forall_map.
    apply Forall_forall. intros i _. eexists. split; [reflexivity|].
    unfold Chaos._generate_single_log. rewrite Hg. cbn [andb Chaos.message].
    apply noise_is_not_signature.
Qed.

Lemma normal_stream_has_no_signature_witness :
  Forall (fun s => exists log,
              s = Chaos.message log /\ Chaos.message log <> Chaos.SIGNATURE)
    (fst (fst (Chaos.generate_log_stream Chaos.message Chaos.init
                 (repeat {| Chaos.rolls :=
                              fun i => Chaos.mkRoll true i i i "t";
                            Chaos.interlude := [Chaos.SetMeltdown false] |}
                    3)))).
Proof.
  apply (normal_stream_has_no_signature Chaos.message Chaos.init);
    reflexivity.
Defined.
